(** * frontd: encrypted-address TCP front end (main.go)

    A shallow embedding of [main.go] and of the standard-library routines it
    calls, followed by the properties of the address codec, the address cache,
    the relay and the accept loop.

    Go's [byte] is modelled by [ascii] (eight bits), a [[]byte] by
    [list ascii] and a Go [string] by [string]; the conversions
    [string(b)] and [[]byte(s)] are [string_of_list_ascii] and
    [list_ascii_of_string].  Go's [int] lengths are [nat] where they only
    measure slices, and [Z] where they are compared with a constant of the
    program. *)

From Stdlib Require Import ZArith NArith Ascii String List Bool Lia.
From stdpp Require Import gmap strings list fin_maps.
Import ListNotations.

Local Open Scope N_scope.

(** ** Bytes *)

Abbreviation bytes := (list ascii).

(** [byte(n)]: conversion of an unsigned integer to [uint8] keeps the low
    eight bits. *)
Definition byte (n : N) : ascii := ascii_of_N (N.land n 0xff).

(** [x ^ y] on [uint8]. *)
Definition byte_xor (x y : ascii) : ascii :=
  match x, y with
  | Ascii x0 x1 x2 x3 x4 x5 x6 x7, Ascii y0 y1 y2 y3 y4 y5 y6 y7 =>
      Ascii (xorb x0 y0) (xorb x1 y1) (xorb x2 y2) (xorb x3 y3)
            (xorb x4 y4) (xorb x5 y5) (xorb x6 y6) (xorb x7 y7)
  end.

(** [bytes.Equal]. *)
Definition bytes_Equal (a b : bytes) : bool := bool_decide (a = b).

(** ** Outcomes of the handler's steps

    Every failure of the handler is a [log.Panicln]; [error] records which
    one. *)

Inductive error : Type :=
| CorruptInputError        (* base64.StdEncoding.DecodeString *)
| KeySizeError             (* aes.NewCipher *)
| ErrCiphertextTooShort    (* "ciphertext too short" *)
| ErrSaltCheckFailed       (* "salt check failed" *)
| ErrSaltNotMatch          (* "salt not match" *)
| ErrReadLine              (* rdr.ReadLine: error or over-long line *)
| ErrDial                  (* net.Dial *)
| ErrRelayDone.            (* the unconditional log.Panicln after wg.Wait *)

Inductive result (A : Type) : Type :=
| Ok (a : A)
| Panic (e : error).
Arguments Ok {A} a.
Arguments Panic {A} e.

(** Sequencing: a panic skips the rest of the function body.  With these
    instances stdpp's [x ← r; k] is available for [result]. *)
#[global] Instance result_ret : MRet result := fun _ a => Ok a.
#[global] Instance result_bind : MBind result := fun _ _ k r =>
  match r with
  | Ok a => k a
  | Panic e => Panic e
  end.

(** ** encoding/base64, standard encoding *)

Module base64.

(** The alphabet of [StdEncoding]. *)
Definition encodeStd : bytes :=
  list_ascii_of_string
    "ABCDEFGHIJKLMNOPQRSTUVWXYZabcdefghijklmnopqrstuvwxyz0123456789+/".

Definition StdPadding : ascii := "="%char.

(** [enc.encode[i]] *)
Definition encode (i : N) : ascii := nth (N.to_nat i) encodeStd "000"%char.

Fixpoint index_of (c : ascii) (l : bytes) (i : N) : N :=
  match l with
  | [] => 0xff
  | x :: l' => if Ascii.eqb x c then i else index_of c l' (i + 1)
  end.

(** [enc.decodeMap[c]]: the position of [c] in the alphabet, [0xff] for a
    byte outside it. *)
Definition decodeMap (c : ascii) : N := index_of c encodeStd 0.

Definition is_newline (c : ascii) : bool :=
  Ascii.eqb c "010"%char || Ascii.eqb c "013"%char.

Fixpoint skip_newlines (src : bytes) : bytes :=
  match src with
  | c :: rest => if is_newline c then skip_newlines rest else src
  | [] => []
  end.

(** The 24-bit value of a quantum, from its (at most four) 6-bit digits;
    digits that were not read are zero. *)
Definition quantum_val (dbuf : list N) : N :=
  N.lor (N.lor (N.lor (N.shiftl (nth 0 dbuf 0) 18)
                      (N.shiftl (nth 1 dbuf 0) 12))
               (N.shiftl (nth 2 dbuf 0) 6))
        (nth 3 dbuf 0).

(** The [dlen - 1] bytes a quantum of [dlen] digits yields. *)
Definition quantum_bytes (dbuf : list N) : bytes :=
  let val := quantum_val dbuf in
  firstn (length dbuf - 1)
         [byte (N.shiftr val 16); byte (N.shiftr val 8); byte val].

(** [decodeQuantum], iterated by [Decode] until the input is consumed.
    [dbuf] holds the digits of the quantum being read ([j] is its length).
    The result is [None] for a [CorruptInputError]. *)
Fixpoint decode_loop (src : bytes) (dbuf : list N) : option bytes :=
  match src with
  | [] =>
      match dbuf with
      | [] => Some []              (* input ends on a quantum boundary *)
      | _ => None                  (* input ends inside a quantum *)
      end
  | c :: rest =>
      let out := decodeMap c in
      if negb (out =? 0xff) then
        let dbuf' := dbuf ++ [out] in
        if (length dbuf' =? 4)%nat then
          option_map (app (quantum_bytes dbuf')) (decode_loop rest [])
        else decode_loop rest dbuf'
      else if is_newline c then decode_loop rest dbuf
      else if negb (Ascii.eqb c StdPadding) then None
      else
        (* padding: only after two or three digits, and only at the end *)
        match length dbuf with
        | 2%nat =>
            match skip_newlines rest with
            | c2 :: rest2 =>
                if Ascii.eqb c2 StdPadding then
                  match skip_newlines rest2 with
                  | [] => Some (quantum_bytes dbuf)
                  | _ => None      (* trailing garbage *)
                  end
                else None          (* incorrect padding *)
            | [] => None           (* not enough padding *)
            end
        | 3%nat =>
            match skip_newlines rest with
            | [] => Some (quantum_bytes dbuf)
            | _ => None            (* trailing garbage *)
            end
        | _ => None                (* incorrect padding *)
        end
  end.

(** [StdEncoding.DecodeString] *)
Definition DecodeString (s : string) : result bytes :=
  match decode_loop (list_ascii_of_string s) [] with
  | Some data => Ok data
  | None => Panic CorruptInputError
  end.

(** Modelled from the spec: the token producer's [base64_standard_encode]
    (section 6), which is not part of the repository: the standard alphabet
    with [=] padding, three bytes to four digits. *)
Fixpoint EncodeToString_bytes (src : bytes) : bytes :=
  match src with
  | [] => []
  | [a] =>
      let val := N.shiftl (N_of_ascii a) 16 in
      [encode (N.land (N.shiftr val 18) 0x3f);
       encode (N.land (N.shiftr val 12) 0x3f);
       StdPadding; StdPadding]
  | [a; b] =>
      let val := N.lor (N.shiftl (N_of_ascii a) 16)
                       (N.shiftl (N_of_ascii b) 8) in
      [encode (N.land (N.shiftr val 18) 0x3f);
       encode (N.land (N.shiftr val 12) 0x3f);
       encode (N.land (N.shiftr val 6) 0x3f);
       StdPadding]
  | a :: b :: c :: rest =>
      let val := N.lor (N.lor (N.shiftl (N_of_ascii a) 16)
                              (N.shiftl (N_of_ascii b) 8))
                       (N_of_ascii c) in
      encode (N.land (N.shiftr val 18) 0x3f)
      :: encode (N.land (N.shiftr val 12) 0x3f)
      :: encode (N.land (N.shiftr val 6) 0x3f)
      :: encode (N.land val 0x3f)
      :: EncodeToString_bytes rest
  end.

Definition EncodeToString (src : bytes) : string :=
  string_of_list_ascii (EncodeToString_bytes src).

End base64.

(** ** crypto/aes

    The block cipher of FIPS 197 that [aes.NewCipher] returns.  The state is
    the list of the sixteen bytes of the block in input order, so the byte of
    row [r] and column [c] is at index [r + 4 * c]. *)

Module aes.

Definition BlockSize : nat := 16.

(** The substitution table (sbox0 of crypto/aes). *)
Definition sbox0 : list N :=
  [
   0x63; 0x7c; 0x77; 0x7b; 0xf2; 0x6b; 0x6f; 0xc5; 0x30; 0x01; 0x67; 0x2b; 0xfe; 0xd7; 0xab; 0x76;
   0xca; 0x82; 0xc9; 0x7d; 0xfa; 0x59; 0x47; 0xf0; 0xad; 0xd4; 0xa2; 0xaf; 0x9c; 0xa4; 0x72; 0xc0;
   0xb7; 0xfd; 0x93; 0x26; 0x36; 0x3f; 0xf7; 0xcc; 0x34; 0xa5; 0xe5; 0xf1; 0x71; 0xd8; 0x31; 0x15;
   0x04; 0xc7; 0x23; 0xc3; 0x18; 0x96; 0x05; 0x9a; 0x07; 0x12; 0x80; 0xe2; 0xeb; 0x27; 0xb2; 0x75;
   0x09; 0x83; 0x2c; 0x1a; 0x1b; 0x6e; 0x5a; 0xa0; 0x52; 0x3b; 0xd6; 0xb3; 0x29; 0xe3; 0x2f; 0x84;
   0x53; 0xd1; 0x00; 0xed; 0x20; 0xfc; 0xb1; 0x5b; 0x6a; 0xcb; 0xbe; 0x39; 0x4a; 0x4c; 0x58; 0xcf;
   0xd0; 0xef; 0xaa; 0xfb; 0x43; 0x4d; 0x33; 0x85; 0x45; 0xf9; 0x02; 0x7f; 0x50; 0x3c; 0x9f; 0xa8;
   0x51; 0xa3; 0x40; 0x8f; 0x92; 0x9d; 0x38; 0xf5; 0xbc; 0xb6; 0xda; 0x21; 0x10; 0xff; 0xf3; 0xd2;
   0xcd; 0x0c; 0x13; 0xec; 0x5f; 0x97; 0x44; 0x17; 0xc4; 0xa7; 0x7e; 0x3d; 0x64; 0x5d; 0x19; 0x73;
   0x60; 0x81; 0x4f; 0xdc; 0x22; 0x2a; 0x90; 0x88; 0x46; 0xee; 0xb8; 0x14; 0xde; 0x5e; 0x0b; 0xdb;
   0xe0; 0x32; 0x3a; 0x0a; 0x49; 0x06; 0x24; 0x5c; 0xc2; 0xd3; 0xac; 0x62; 0x91; 0x95; 0xe4; 0x79;
   0xe7; 0xc8; 0x37; 0x6d; 0x8d; 0xd5; 0x4e; 0xa9; 0x6c; 0x56; 0xf4; 0xea; 0x65; 0x7a; 0xae; 0x08;
   0xba; 0x78; 0x25; 0x2e; 0x1c; 0xa6; 0xb4; 0xc6; 0xe8; 0xdd; 0x74; 0x1f; 0x4b; 0xbd; 0x8b; 0x8a;
   0x70; 0x3e; 0xb5; 0x66; 0x48; 0x03; 0xf6; 0x0e; 0x61; 0x35; 0x57; 0xb9; 0x86; 0xc1; 0x1d; 0x9e;
   0xe1; 0xf8; 0x98; 0x11; 0x69; 0xd9; 0x8e; 0x94; 0x9b; 0x1e; 0x87; 0xe9; 0xce; 0x55; 0x28; 0xdf;
   0x8c; 0xa1; 0x89; 0x0d; 0xbf; 0xe6; 0x42; 0x68; 0x41; 0x99; 0x2d; 0x0f; 0xb0; 0x54; 0xbb; 0x16
  ].

Definition SubByte (a : ascii) : ascii :=
  ascii_of_N (nth (N.to_nat (N_of_ascii a)) sbox0 0).

(** Multiplication by [x] in GF(2^8) modulo [x^8 + x^4 + x^3 + x + 1]. *)
Definition xtime (a : ascii) : ascii :=
  let n := N_of_ascii a in
  byte (N.lxor (N.shiftl n 1) (if N.testbit n 7 then 0x1b else 0)).

Definition SubBytes (st : bytes) : bytes := map SubByte st.

Definition at_ (st : bytes) (i : nat) : ascii := nth i st "000"%char.

(** Row [r] is rotated left by [r] columns. *)
Definition ShiftRows (st : bytes) : bytes :=
  map (at_ st) [0; 5; 10; 15; 4; 9; 14; 3; 8; 13; 2; 7; 12; 1; 6; 11]%nat.

Definition mix_column (a0 a1 a2 a3 : ascii) : bytes :=
  let mul2 := xtime in
  let mul3 x := byte_xor (xtime x) x in
  [byte_xor (byte_xor (mul2 a0) (mul3 a1)) (byte_xor a2 a3);
   byte_xor (byte_xor a0 (mul2 a1)) (byte_xor (mul3 a2) a3);
   byte_xor (byte_xor a0 a1) (byte_xor (mul2 a2) (mul3 a3));
   byte_xor (byte_xor (mul3 a0) a1) (byte_xor a2 (mul2 a3))].

Definition MixColumns (st : bytes) : bytes :=
  flat_map (fun c : nat =>
              mix_column (at_ st (4 * c)) (at_ st (4 * c + 1))
                         (at_ st (4 * c + 2)) (at_ st (4 * c + 3)))
           [0; 1; 2; 3]%nat.

(** The round key of round [r] is bytes [16 r .. 16 r + 15] of the expanded
    key [w]. *)
Definition AddRoundKey (w : bytes) (r : nat) (st : bytes) : bytes :=
  map (fun i : nat => byte_xor (at_ st i) (at_ w (16 * r + i))) (seq 0 16).

(** *** Key expansion *)

Definition RotWord (t : bytes) : bytes :=
  match t with
  | [a; b; c; d] => [b; c; d; a]
  | _ => t
  end.

Definition SubWord (t : bytes) : bytes := map SubByte t.

Definition xor_words (x y : bytes) : bytes := zip_with byte_xor x y.

(** The round constant [x^(i-1)]. *)
Definition Rcon (i : nat) : bytes :=
  [Nat.iter (i - 1) xtime "001"%char; "000"%char; "000"%char; "000"%char].

(** Word [i] of the expanded key [w] (a list of bytes, four per word). *)
Definition word_at (w : bytes) (i : nat) : bytes :=
  firstn 4 (skipn (4 * i) w).

(** One step of the expansion: word [i] from words [i - 1] and [i - Nk]. *)
Definition next_word (Nk : nat) (w : bytes) (i : nat) : bytes :=
  let temp := word_at w (i - 1) in
  let temp :=
    if (i mod Nk =? 0)%nat then
      xor_words (SubWord (RotWord temp)) (Rcon (i / Nk))
    else if (6 <? Nk)%nat && (i mod Nk =? 4)%nat then SubWord temp
    else temp in
  xor_words (word_at w (i - Nk)) temp.

(** [4 * (Nr + 1)] words, the first [Nk] of which are the key. *)
Definition expandKey (key : bytes) : bytes :=
  let Nk := (length key / 4)%nat in
  let Nr := (Nk + 6)%nat in
  fold_left (fun w i => w ++ next_word Nk w i)
            (seq Nk (4 * (Nr + 1) - Nk)) key.

(** An [aesCipher]: the expanded encryption key and the number of
    rounds. *)
Record Cipher : Type := { enc : bytes; rounds : nat }.

(** [aes.NewCipher]: the key must be 16, 24 or 32 bytes long. *)
Definition NewCipher (key : bytes) : result Cipher :=
  match length key with
  | 16%nat | 24%nat | 32%nat =>
      Ok {| enc := expandKey key; rounds := (length key / 4 + 6)%nat |}
  | _ => Panic KeySizeError
  end.

(** [Encrypt] of one block. *)
Definition Encrypt (c : Cipher) (src : bytes) : bytes :=
  let w := enc c in
  let st := AddRoundKey w 0 src in
  let st :=
    fold_left (fun st r => AddRoundKey w r (MixColumns (ShiftRows (SubBytes st))))
              (seq 1 (rounds c - 1)) st in
  AddRoundKey w (rounds c) (ShiftRows (SubBytes st)).

End aes.

(** ** crypto/cipher, CFB mode

    The stream of [cipher.NewCFBEncrypter] and [cipher.NewCFBDecrypter]:
    [next] is the shift register (the IV at first), [out] the encrypted
    register and [outUsed] the number of its bytes already consumed.  Each
    byte of the source is XORed with the next unused byte of [out]; the
    ciphertext byte (the result when encrypting, the source when decrypting)
    replaces the register byte at the same position, and the register is
    encrypted again when [out] is used up. *)

Module cipher.

Record cfb : Type :=
  { b : aes.Cipher; next : bytes; out : bytes; outUsed : nat; decrypt : bool }.

(** [newCFB]; the program only calls it with an IV of one block (Go panics on
    another length). *)
Definition newCFB (block : aes.Cipher) (iv : bytes) (decrypt : bool) : cfb :=
  {| b := block; next := iv; out := repeat "000"%char aes.BlockSize;
     outUsed := aes.BlockSize; decrypt := decrypt |}.

Definition NewCFBEncrypter (block : aes.Cipher) (iv : bytes) : cfb :=
  newCFB block iv false.

Definition NewCFBDecrypter (block : aes.Cipher) (iv : bytes) : cfb :=
  newCFB block iv true.

(** [XORKeyStream(dst, src)], returning [dst]. *)
Fixpoint XORKeyStream (x : cfb) (src : bytes) : bytes :=
  match src with
  | [] => []
  | s :: src' =>
      let x :=
        if (outUsed x =? length (out x))%nat then
          {| b := b x; next := next x; out := aes.Encrypt (b x) (next x);
             outUsed := 0; decrypt := decrypt x |}
        else x in
      let d := byte_xor s (aes.at_ (out x) (outUsed x)) in
      let fed := if decrypt x then s else d in
      d :: XORKeyStream
             {| b := b x; next := <[outUsed x := fed]> (next x); out := out x;
                outUsed := S (outUsed x); decrypt := decrypt x |}
             src'
  end.

End cipher.

(** ** main.go *)

Local Open Scope nat_scope.

(** [_MaxBackendAddrCacheCount int = 1024 * 1024] *)
Definition _MaxBackendAddrCacheCount : Z := (1024 * 1024)%Z.

(** *** The address cache

    [_BackendAddrCache] is an [atomic.Value] holding a [map[string]string];
    the model's state is the map currently stored in it.  Writers hold
    [_BackendAddrCacheMutex] from the load to the store, so a write is one
    atomic step from the stored map to the next. *)

(** [init]: the cache starts as an empty map. *)
Definition init : gmap string string := ∅.

(** [readBackendAddrCache]: [val, ok := m1[key]], [None] when [ok] is
    false. *)
Definition readBackendAddrCache (key : string) (m1 : gmap string string)
  : option string :=
  m1 !! key.

(** [for k, v := range m1 { m2[k] = v }], over the entries in the order the
    iteration visits them. *)
Definition copy_entries (entries : list (string * string))
    (m2 : gmap string string) : gmap string string :=
  foldl (fun m2 kv => <[kv.1 := kv.2]> m2) m2 entries.

(** [writeBackendAddrCache]: the map stored after the call, from the map
    [m1] loaded at its start. *)
Definition writeBackendAddrCache (key val : string) (m1 : gmap string string)
  : gmap string string :=
  let m2 : gmap string string := ∅ in
  let m2 :=
    if (Z.of_nat (size m1) <? _MaxBackendAddrCacheCount)%Z
    then copy_entries (map_to_list m1) m2
    else m2 in
  <[key := val]> m2.

(** The cache after a sequence of calls of [writeBackendAddrCache], oldest
    first. *)
Definition run_writes (ws : list (string * string)) (m : gmap string string)
  : gmap string string :=
  foldl (fun m kv => writeBackendAddrCache kv.1 kv.2 m) m ws.

(** The states of the cache the program can reach. *)
Inductive reachable : gmap string string -> Prop :=
| reachable_init : reachable init
| reachable_write key val m :
    reachable m -> reachable (writeBackendAddrCache key val m).

(** *** The connection handler *)

(** What the outside world answers to one connection: the result of
    [rdr.ReadLine] and, for each address, whether [net.Dial] succeeds. *)
Record conn : Type :=
  { line : bytes;              (* the first line, terminator removed *)
    isPrefix : bool;           (* the line did not fit the reader's buffer *)
    read_err : bool;           (* ReadLine returned an error *)
    dial_ok : string -> bool }.

(** The calls of the handler that act on shared state or on the network. *)
Inductive event : Type :=
| CacheWrite (key val : string)
| Dial (addr : string)
| Relay (addr : string).

(** How a goroutine ends.  A panic that no deferred function recovers
    ends the whole process. *)
Inductive goroutine_end : Type :=
| Returned
| Recovered (e : error)
| Unrecovered (e : error).

(** A goroutine running [body]; [recovers] tells whether the function
    defers a call of [recover]. *)
Definition go {A} (recovers : bool) (body : result A) : goroutine_end :=
  match body with
  | Ok _ => Returned
  | Panic e => if recovers then Recovered e else Unrecovered e
  end.

(** What [l.Accept] returns. *)
Inductive accepted : Type :=
| Accept (c : conn)
| AcceptError.

Inductive process : Type :=
| Accepting        (* blocked in l.Accept, waiting for the next connection *)
| Exited           (* log.Fatal: os.Exit(1) *)
| Crashed (e : error).   (* a panic left a goroutine *)

Section Handler.

(** [_SecretPassphase] and [_Salt], set once by [main] from the
    environment. *)
Variables _SecretPassphase _Salt : bytes.

(** Lines 115-144: from the header line to the backend address. *)
Definition decode (line : bytes) : result string :=
  data ← base64.DecodeString (string_of_list_ascii line);
  block ← aes.NewCipher _SecretPassphase;
  if length data <? aes.BlockSize then Panic ErrCiphertextTooShort else
  let iv := take aes.BlockSize data in
  let text := drop aes.BlockSize data in
  let cfb := cipher.NewCFBDecrypter block iv in
  let text := cipher.XORKeyStream cfb text in
  if length text <? length _Salt then Panic ErrSaltCheckFailed else
  let addrLength := length text - length _Salt in
  if negb (bytes_Equal (drop addrLength text) _Salt)
  then Panic ErrSaltNotMatch
  else Ok (string_of_list_ascii (take addrLength text)).

(** Lines 112-148: the cache is consulted first and filled on a miss.  The
    result comes with the cache after the step and the events of the
    step. *)
Definition resolve (line : bytes) (cache : gmap string string)
  : result string * gmap string string * list event :=
  let key := string_of_list_ascii line in
  match readBackendAddrCache key cache with
  | Some addr => (Ok addr, cache, [])
  | None =>
      match decode line with
      | Ok addr =>
          (Ok addr, writeBackendAddrCache key addr cache,
           [CacheWrite key addr])
      | Panic e => (Panic e, cache, [])
      end
  end.

(** The body of the goroutine started for a connection (lines 99-166).
    After [wg.Wait] the body ends in an unconditional [log.Panicln]. *)
Definition handle (c : conn) (cache : gmap string string)
  : result unit * gmap string string * list event :=
  if read_err c || isPrefix c then (Panic ErrReadLine, cache, []) else
  let '(r, cache', evs) := resolve (line c) cache in
  match r with
  | Panic e => (Panic e, cache', evs)
  | Ok addr =>
      if dial_ok c addr
      then (Panic ErrRelayDone, cache', evs ++ [Dial addr; Relay addr])
      else (Panic ErrDial, cache', evs ++ [Dial addr])
  end.

(** *** The accept loop *)

(** [TCPServer] over the results of the successive calls of [l.Accept].
    Each connection's goroutine is run to its end when it is started; the
    handlers share only the cache, whose reads and writes are atomic. *)
Fixpoint TCPServer (incoming : list accepted) (cache : gmap string string)
  : process * gmap string string * list event :=
  match incoming with
  | [] => (Accepting, cache, [])
  | AcceptError :: _ => (Exited, cache, [])
  | Accept c :: rest =>
      let '(r, cache', evs) := handle c cache in
      match go true r with
      | Unrecovered e => (Crashed e, cache', evs)
      | _ =>
          let '(p, cache'', evs') := TCPServer rest cache' in
          (p, cache'', evs ++ evs')
      end
  end.

(** Modelled from the spec: the token producer (section 6), which is not
    part of the repository:
    [base64_standard_encode(IV || AES_CFB_encrypt(key, IV, UTF8(D) || salt))].
    A Go string is its UTF-8 bytes. *)
Definition encode (iv : bytes) (D : string) : result string :=
  block ← aes.NewCipher _SecretPassphase;
  let cfb := cipher.NewCFBEncrypter block iv in
  let ct := cipher.XORKeyStream cfb (list_ascii_of_string D ++ _Salt) in
  Ok (base64.EncodeToString (iv ++ ct)).

End Handler.

(** *** The relay (pipe, and lines 159-164 of the handler)

    Three goroutines share the [sync.WaitGroup]: the handler, which starts
    the two pipes and then waits, and one pipe per direction.  A pipe first
    calls [wg.Add(1)], then copies until its source is exhausted or fails,
    and calls [wg.Done()] in its deferred function.  The scheduler chooses
    which goroutine takes the next step. *)

Inductive pipe_pc : Type :=
| Unstarted     (* the go statement has not been executed *)
| Spawned       (* started, wg.Add(1) not yet executed *)
| Copying       (* inside io.Copy *)
| Finished.     (* io.Copy has returned and wg.Done() was called *)

Inductive handler_pc : Type :=
| AtGoPipe1     (* line 161: go pipe(c, backend, &wg) *)
| AtGoPipe2     (* line 162: go pipe(backend, c, &wg) *)
| AtWait        (* line 164: wg.Wait() *)
| AfterWait.    (* wg.Wait() has returned: the relay is over *)

Record relay : Type :=
  { wg : Z;                    (* the counter of the WaitGroup *)
    to_client : pipe_pc;       (* pipe(c, backend, &wg) *)
    to_backend : pipe_pc;      (* pipe(backend, c, &wg) *)
    pc : handler_pc }.

Inductive goroutine : Type := Handler | PipeToClient | PipeToBackend.

(** [var wg sync.WaitGroup]: the counter starts at zero. *)
Definition relay_start : relay :=
  {| wg := 0; to_client := Unstarted; to_backend := Unstarted;
     pc := AtGoPipe1 |}.

(** One step of a pipe: its new state and the change of the counter.
    [None]: the goroutine cannot step. *)
Definition pipe (p : pipe_pc) : option (pipe_pc * Z) :=
  match p with
  | Unstarted => None
  | Spawned => Some (Copying, 1%Z)          (* wg.Add(1) *)
  | Copying => Some (Finished, (-1)%Z)      (* io.Copy returns; wg.Done() *)
  | Finished => None
  end.

(** One step of the chosen goroutine.  [wg.Wait] returns when the counter is
    zero and blocks otherwise. *)
Definition step (g : goroutine) (s : relay) : option relay :=
  match g with
  | Handler =>
      match pc s with
      | AtGoPipe1 =>
          Some {| wg := wg s; to_client := Spawned;
                  to_backend := to_backend s; pc := AtGoPipe2 |}
      | AtGoPipe2 =>
          Some {| wg := wg s; to_client := to_client s;
                  to_backend := Spawned; pc := AtWait |}
      | AtWait =>
          if (wg s =? 0)%Z
          then Some {| wg := wg s; to_client := to_client s;
                       to_backend := to_backend s; pc := AfterWait |}
          else None
      | AfterWait => None
      end
  | PipeToClient =>
      '(p, d) ← pipe (to_client s);
      Some {| wg := (wg s + d)%Z; to_client := p;
              to_backend := to_backend s; pc := pc s |}
  | PipeToBackend =>
      '(p, d) ← pipe (to_backend s);
      Some {| wg := (wg s + d)%Z; to_client := to_client s;
              to_backend := p; pc := pc s |}
  end.

(** A schedule: the goroutines in the order they step. *)
Fixpoint run (schedule : list goroutine) (s : relay) : option relay :=
  match schedule with
  | [] => Some s
  | g :: schedule' => s' ← step g s; run schedule' s'
  end.

(** *** bufio: the header line

    [bufio.NewReader(c)] has a buffer of [defaultBufSize] bytes and the
    handler calls [ReadLine] once, on the fresh reader.  [input] is what the
    connection delivers before it ends (by EOF or by an error); reads are
    those of a network connection, which reports its end on a read of its
    own. *)

Definition defaultBufSize : nat := 4096.

(** [bytes.IndexByte] *)
Fixpoint IndexByte (s : bytes) (c : ascii) : option nat :=
  match s with
  | [] => None
  | x :: s' => if Ascii.eqb x c then Some 0 else S <$> IndexByte s' c
  end.

(** The line without a carriage return at its end. *)
Definition drop_cr (l : bytes) : bytes :=
  match last l with
  | Some c => if Ascii.eqb c "013"%char then take (length l - 1) l else l
  | None => l
  end.

(** [rdr.ReadLine()] on the fresh reader: the line, [isPrefix], and whether
    [err] is not nil.  [ReadSlice] stops at the first line feed in the
    buffer, at the end of the input, or when the buffer is full. *)
Definition ReadLine (input : bytes) : bytes * bool * bool :=
  let buf := take defaultBufSize input in
  match IndexByte buf "010"%char with
  | Some i => (drop_cr (take i buf), false, false)
  | None =>
      if length input <? defaultBufSize then
        match input with
        | [] => ([], false, true)        (* nothing was read: the error *)
        | _ => (input, false, false)     (* a last line without line end *)
        end
      else (drop_cr buf, true, false)    (* ErrBufferFull *)
  end.

(** The connection of a client that sends [input], with the answers of
    [net.Dial]. *)
Definition conn_of (input : bytes) (dial_ok : string -> bool) : conn :=
  let '(l, p, e) := ReadLine input in
  {| line := l; isPrefix := p; read_err := e; dial_ok := dial_ok |}.

(** *** main *)

(** [_MaxOpenfile uint64 = 1024 * 1024 * 1024] *)
Definition _MaxOpenfile : N := (1024 * 1024 * 1024)%N.

(** [syscall.Rlimit]; both fields are [uint64]. *)
Record Rlimit : Type := { Cur : N; Max : N }.

(** Lines 178-182: the limit after the adjustment, and whether
    [syscall.Setrlimit] is called with it. *)
Definition raise_nofile (lim : Rlimit) : Rlimit * bool :=
  if (Cur lim <? _MaxOpenfile)%N || (Max lim <? _MaxOpenfile)%N
  then ({| Cur := _MaxOpenfile; Max := _MaxOpenfile |}, true)
  else (lim, false).

(** [os.Getenv]: the value of the variable, empty when it is not set. *)
Definition Getenv (environ : gmap string string) (key : string) : string :=
  default ""%string (environ !! key).

(** What [main] finds: the environment, the limit [syscall.Getrlimit]
    stores, whether [net.Listen] succeeds. *)
Record world : Type :=
  { environ : gmap string string;
    nofile : Rlimit;
    listen_ok : bool }.

(** [main]: the argument of [syscall.Setrlimit] if it is called, and the run
    of the server.  The cache is the one [init] has stored. *)
Definition main (w : world) (incoming : list accepted)
  : option Rlimit * (process * gmap string string * list event) :=
  let '(lim, set) := raise_nofile (nofile w) in
  let _Salt := list_ascii_of_string (Getenv (environ w) "SALT") in
  let _SecretPassphase := list_ascii_of_string (Getenv (environ w) "SECRET") in
  (if set then Some lim else None,
   if listen_ok w
   then TCPServer _SecretPassphase _Salt incoming init
   else (Exited, init, [])).     (* log.Fatal(err) *)

(** ** Notions used in the statements *)

(** The key sizes [aes.NewCipher] accepts. *)
Definition valid_key (key : bytes) : Prop :=
  length key = 16 \/ length key = 24 \/ length key = 32.

(** The plaintext the handler obtains from a decoded payload: the first
    block is the IV, the rest is decrypted. *)
Definition plaintext (block : aes.Cipher) (data : bytes) : bytes :=
  cipher.XORKeyStream
    (cipher.NewCFBDecrypter block (take aes.BlockSize data))
    (drop aes.BlockSize data).

(** The number of pipes a state of the relay counts as running. *)
Definition copying (p : pipe_pc) : Z :=
  match p with
  | Copying => 1
  | _ => 0
  end.

(** The pipe has called [wg.Add]. *)
Definition added (p : pipe_pc) : Prop := p = Copying \/ p = Finished.

(** What holds from the moment both pipes have called [wg.Add] while the
    handler has not passed [wg.Wait]. *)
Definition waiting (s : relay) : Prop :=
  wg s = (copying (to_client s) + copying (to_backend s))%Z /\
  added (to_client s) /\ added (to_backend s) /\
  (pc s = AtWait \/
   pc s = AfterWait /\ to_client s = Finished /\ to_backend s = Finished).

(** Writes of [n] distinct keys: the key of write [i] is made of [i]
    letters. *)
Definition key_no (i : nat) : string :=
  string_of_list_ascii (replicate i "a"%char).

Definition fill (n : nat) : list (string * string) :=
  (fun i => (key_no i, ""%string)) <$> seq 0 n.

(** Bytes written in hexadecimal, for test data. *)
Definition hex_digit (c : ascii) : N :=
  let n := N_of_ascii c in
  if (n <? 58)%N then (n - 48)%N else (n - 87)%N.

Fixpoint hex_bytes (l : bytes) : bytes :=
  match l with
  | hi :: lo :: l' =>
      ascii_of_N (16 * hex_digit hi + hex_digit lo) :: hex_bytes l'
  | _ => []
  end.

Definition hex (s : string) : bytes := hex_bytes (list_ascii_of_string s).

(** A sample configuration: a 128-bit secret, the salt ["v1"] and the IV
    [00 01 .. 0f]. *)
Definition key128 : bytes := list_ascii_of_string "0123456789abcdef".
Definition salt_v1 : bytes := list_ascii_of_string "v1".
Definition iv_0_15 : bytes := hex "000102030405060708090a0b0c0d0e0f".

(** Every entry of the cache maps a header line to the address the line
    decodes to. *)
Definition cache_sound (key salt : bytes) (cache : gmap string string) : Prop :=
  forall k v,
    cache !! k = Some v -> decode key salt (list_ascii_of_string k) = Ok v.

(** The line without its carriage returns and line feeds. *)
Definition strip_newlines (l : bytes) : bytes :=
  filter (fun c => base64.is_newline c = false) l.

(** What the relay keeps in every schedule: the counter is the number of
    pipes that are copying, and a pipe is started only by its [go]
    statement. *)
Definition relay_inv (s : relay) : Prop :=
  wg s = (copying (to_client s) + copying (to_backend s))%Z /\
  match pc s with
  | AtGoPipe1 => to_client s = Unstarted /\ to_backend s = Unstarted
  | AtGoPipe2 => to_client s <> Unstarted /\ to_backend s = Unstarted
  | AtWait | AfterWait => to_client s <> Unstarted /\ to_backend s <> Unstarted
  end.

(** A schedule that brings the relay to its end: the handler up to
    [wg.Wait], each pipe through [wg.Add] and [wg.Done], and the handler
    past [wg.Wait]. *)
Definition finish_pipe (g : goroutine) (p : pipe_pc) : list goroutine :=
  match p with
  | Unstarted | Spawned => [g; g]
  | Copying => [g]
  | Finished => []
  end.

Definition finish (s : relay) : list goroutine :=
  match pc s with
  | AtGoPipe1 => [Handler; Handler]
  | AtGoPipe2 => [Handler]
  | AtWait | AfterWait => []
  end
  ++ finish_pipe PipeToClient (to_client s)
  ++ finish_pipe PipeToBackend (to_backend s)
  ++ match pc s with
     | AfterWait => []
     | _ => [Handler]
     end.

(** A token of the sample configuration, for the address
    ["127.0.0.1:8080"], and a connection that sends it and whose dial
    succeeds. *)
Definition token_8080 : string :=
  "AAECAwQFBgcICQoLDA0OD5FLrt7SkY44yK+r2byUP4Y="%string.

Definition conn_8080 : conn :=
  {| line := list_ascii_of_string token_8080; isPrefix := false;
     read_err := false; dial_ok := fun _ => true |}.

(** * Properties *)

(** ** The library models on published test data *)

(** RFC 4648, section 10. *)
Example base64_rfc4648 :
  base64.DecodeString "Zm9vYmFy" = Ok (list_ascii_of_string "foobar") /\
  base64.DecodeString "Zm9vYmE=" = Ok (list_ascii_of_string "fooba") /\
  base64.DecodeString "Zm9vYg==" = Ok (list_ascii_of_string "foob") /\
  base64.EncodeToString (list_ascii_of_string "fooba") = "Zm9vYmE="%string.
Proof. repeat split; reflexivity. Qed.

(** Padding is required and must close the input. *)
Example base64_corrupt :
  base64.DecodeString "Zm9vYg" = Panic CorruptInputError /\
  base64.DecodeString "Zm9vYg=" = Panic CorruptInputError /\
  base64.DecodeString "Zg==Zg==" = Panic CorruptInputError /\
  base64.DecodeString "not base64!" = Panic CorruptInputError.
Proof. repeat split; reflexivity. Qed.

(** FIPS 197, appendix C: the example vectors for the three key sizes. *)
Example aes_fips197 :
  let src := hex "00112233445566778899aabbccddeeff" in
  (aes.NewCipher (hex "000102030405060708090a0b0c0d0e0f")
     ≫= fun c => Ok (aes.Encrypt c src))
    = Ok (hex "69c4e0d86a7b0430d8cdb78070b4c55a") /\
  (aes.NewCipher (hex "000102030405060708090a0b0c0d0e0f1011121314151617")
     ≫= fun c => Ok (aes.Encrypt c src))
    = Ok (hex "dda97ca4864cdfe06eaf70a0ec0d7191") /\
  (aes.NewCipher
     (hex "000102030405060708090a0b0c0d0e0f101112131415161718191a1b1c1d1e1f")
     ≫= fun c => Ok (aes.Encrypt c src))
    = Ok (hex "8ea2b7ca516745bfeafc49904b496089").
Proof. repeat split; vm_compute; reflexivity. Qed.

(** NIST SP 800-38A, F.3.13 and F.3.14 (CFB128-AES128), continued into a
    partial third block. *)
Example cfb_sp800_38a :
  let key := hex "2b7e151628aed2a6abf7158809cf4f3c" in
  let plain := hex "6bc1bee22e409f96e93d7e117393172aae2d8a571e03ac9c9eb76fac45af8e5130c81c46a35ce411" in
  let crypt := hex "3b3fd92eb72dad20333449f8e83cfb4ac8a64537a0b3a93fcde3cdad9f1ce58b26751f67a3cbb140" in
  (aes.NewCipher key ≫= fun c =>
     Ok (cipher.XORKeyStream (cipher.NewCFBEncrypter c iv_0_15) plain))
    = Ok crypt /\
  (aes.NewCipher key ≫= fun c =>
     Ok (cipher.XORKeyStream (cipher.NewCFBDecrypter c iv_0_15) crypt))
    = Ok plain.
Proof. split; vm_compute; reflexivity. Qed.

(** Tokens produced outside the model for the sample configuration. *)
Example decode_tokens :
  decode key128 salt_v1
    (list_ascii_of_string "AAECAwQFBgcICQoLDA0OD5FLrt7SkY44yK+r2byUP4Y=")
    = Ok "127.0.0.1:8080"%string /\
  decode (list_ascii_of_string "0123456789abcdef0123456789abcdef")
    (list_ascii_of_string "pepper")
    (list_ascii_of_string
       "//79/Pv6+fj39vX08/Lx8HWu/D3giWn61jU0Twsdb8lyxo5LxCbaDIf7K+BHsDV3hurcNTvz7R8=")
    = Ok "backend.internal.example.org:65535"%string /\
  decode key128 (list_ascii_of_string "v2")
    (list_ascii_of_string "AAECAwQFBgcICQoLDA0OD5FLrt7SkY44yK+r2byUP4Y=")
    = Panic ErrSaltNotMatch /\
  decode key128 salt_v1 (list_ascii_of_string "AAECAwQFBgcICQoLDA0ODw==")
    = Panic ErrSaltCheckFailed /\
  decode key128 salt_v1 (list_ascii_of_string "AAECAwQFBgcICQoLDA0O")
    = Panic ErrCiphertextTooShort /\
  decode (list_ascii_of_string "short key") salt_v1
    (list_ascii_of_string "AAECAwQFBgcICQoLDA0OD5FLrt7SkY44yK+r2byUP4Y=")
    = Panic KeySizeError.
Proof. repeat split; vm_compute; reflexivity. Qed.

Example encode_token :
  encode key128 salt_v1 iv_0_15 "127.0.0.1:8080"
    = Ok "AAECAwQFBgcICQoLDA0OD5FLrt7SkY44yK+r2byUP4Y="%string.
Proof. vm_compute. reflexivity. Qed.

(** ** Bytes *)

Lemma byte_xor_cancel x k : byte_xor (byte_xor x k) k = x.
Proof.
  destruct x, k; simpl.
  by rewrite !xorb_assoc, !xorb_nilpotent, !xorb_false_r.
Qed.

Lemma bytes_Equal_true a b : bytes_Equal a b = true <-> a = b.
Proof. unfold bytes_Equal. by rewrite bool_decide_eq_true. Qed.

(** ** base64: decoding undoes encoding *)

Section base64_facts.

Local Open Scope N_scope.

Lemma digits_all :
  forallb (fun i =>
             (base64.decodeMap (base64.encode i) =? i)
             && negb (base64.is_newline (base64.encode i))
             && negb (Ascii.eqb (base64.encode i) base64.StdPadding))
          (map N.of_nat (seq 0 64)) = true.
Proof. vm_compute. reflexivity. Qed.

(** The 64 digits are told apart by [decodeMap], and none of them is a
    newline or the padding character. *)
Lemma digit_spec i :
  i < 64 ->
  base64.decodeMap (base64.encode i) = i
  /\ base64.is_newline (base64.encode i) = false
  /\ Ascii.eqb (base64.encode i) base64.StdPadding = false.
Proof.
  intros Hi. pose proof digits_all as H.
  rewrite forallb_forall in H. specialize (H i).
  rewrite !andb_true_iff, !negb_true_iff, N.eqb_eq in H.
  assert (Hin : In i (map N.of_nat (seq 0 64))).
  { apply in_map_iff. exists (N.to_nat i). split; [lia|]. apply in_seq. lia. }
  destruct (H Hin) as [[? ?] ?]. auto.
Qed.

(** Reading one digit of the alphabet. *)
Lemma decode_loop_digit i rest dbuf :
  i < 64 ->
  base64.decode_loop (base64.encode i :: rest) dbuf =
    if (length (dbuf ++ [i]) =? 4)%nat
    then option_map (app (base64.quantum_bytes (dbuf ++ [i])))
                    (base64.decode_loop rest [])
    else base64.decode_loop rest (dbuf ++ [i]).
Proof.
  intros Hi. destruct (digit_spec i Hi) as (Hd & _ & _).
  cbn [base64.decode_loop]. rewrite Hd.
  destruct (N.eqb_spec i 0xff) as [->|_]; [lia|]. reflexivity.
Qed.

Lemma decode_loop_pad2 s0 s1 :
  base64.decode_loop [base64.StdPadding; base64.StdPadding] [s0; s1] =
    Some (base64.quantum_bytes [s0; s1]).
Proof. reflexivity. Qed.

Lemma decode_loop_pad1 s0 s1 s2 :
  base64.decode_loop [base64.StdPadding] [s0; s1; s2] =
    Some (base64.quantum_bytes [s0; s1; s2]).
Proof. reflexivity. Qed.

Lemma land_63_lt x : N.land x 0x3f < 64.
Proof.
  change 0x3f with (N.ones 6). rewrite N.land_ones. apply N.mod_lt. lia.
Qed.

(** [|] of a multiple of [2^k] and a number below [2^k] is their sum. *)
Lemma lor_low q lo k : lo < 2 ^ k -> N.lor (q * 2 ^ k) lo = q * 2 ^ k + lo.
Proof.
  intros Hlo.
  assert (Hland : N.land (q * 2 ^ k) lo = 0).
  { apply N.bits_inj. intros i. rewrite N.land_spec, N.bits_0.
    destruct (N.lt_ge_cases i k) as [Hi|Hi].
    - by rewrite N.mul_pow2_bits_low.
    - rewrite <- (N.mod_small lo (2 ^ k)) by done.
      rewrite N.mod_pow2_bits_high by done. apply andb_false_r. }
  by rewrite <- N.lxor_lor, <- N.add_nocarry_lxor.
Qed.

(** The 24-bit group of three bytes, as a sum. *)
Lemma pack_bytes A B C :
  B < 256 -> C < 256 ->
  N.lor (N.lor (N.shiftl A 16) (N.shiftl B 8)) C = A * 65536 + B * 256 + C.
Proof.
  intros HB HC. rewrite !N.shiftl_mul_pow2.
  rewrite (lor_low A (B * 2 ^ 8) 16)
    by (change (2 ^ 16) with 65536; change (2 ^ 8) with 256; lia).
  replace (A * 2 ^ 16 + B * 2 ^ 8) with ((A * 256 + B) * 2 ^ 8)
    by (change (2 ^ 16) with 65536; change (2 ^ 8) with 256; lia).
  rewrite lor_low by (change (2 ^ 8) with 256; lia).
  change (2 ^ 8) with 256. lia.
Qed.

(** The value of a quantum of four digits, as a sum. *)
Lemma pack_digits s0 s1 s2 s3 :
  s1 < 64 -> s2 < 64 -> s3 < 64 ->
  base64.quantum_val [s0; s1; s2; s3] =
    s0 * 262144 + s1 * 4096 + s2 * 64 + s3.
Proof.
  intros H1 H2 H3. unfold base64.quantum_val. cbn [nth].
  rewrite !N.shiftl_mul_pow2.
  rewrite (lor_low s0 (s1 * 2 ^ 12) 18)
    by (change (2 ^ 12) with 4096; change (2 ^ 18) with 262144; lia).
  replace (s0 * 2 ^ 18 + s1 * 2 ^ 12) with ((s0 * 64 + s1) * 2 ^ 12)
    by (change (2 ^ 12) with 4096; change (2 ^ 18) with 262144; lia).
  rewrite (lor_low _ (s2 * 2 ^ 6) 12)
    by (change (2 ^ 12) with 4096; change (2 ^ 6) with 64; lia).
  replace ((s0 * 64 + s1) * 2 ^ 12 + s2 * 2 ^ 6)
    with (((s0 * 64 + s1) * 64 + s2) * 2 ^ 6)
    by (change (2 ^ 12) with 4096; change (2 ^ 6) with 64; lia).
  rewrite lor_low by (change (2 ^ 6) with 64; lia).
  change (2 ^ 6) with 64. lia.
Qed.

(** The digit of [v] that starts at bit [k]. *)
Lemma digit_div v k : N.land (N.shiftr v k) 0x3f = (v / 2 ^ k) mod 64.
Proof.
  change 0x3f with (N.ones 6). by rewrite N.land_ones, N.shiftr_div_pow2.
Qed.

(** Splitting a 24-bit value into four digits and putting them together
    again gives the value back. *)
Lemma regroup v :
  v < 16777216 ->
  base64.quantum_val
    [N.land (N.shiftr v 18) 0x3f; N.land (N.shiftr v 12) 0x3f;
     N.land (N.shiftr v 6) 0x3f; N.land v 0x3f] = v.
Proof.
  intros Hv.
  rewrite pack_digits by apply land_63_lt.
  rewrite <- (N.shiftr_0_r v) at 4. rewrite !digit_div.
  change (2 ^ 0) with 1. change (2 ^ 6) with 64.
  change (2 ^ 12) with 4096. change (2 ^ 18) with 262144.
  rewrite N.div_1_r.
  replace (v / 262144) with (v / 64 / 64 / 64)
    by (rewrite !N.Div0.div_div; reflexivity).
  replace (v / 4096) with (v / 64 / 64)
    by (rewrite !N.Div0.div_div; reflexivity).
  pose proof (N.div_mod v 64 ltac:(lia)).
  pose proof (N.div_mod (v / 64) 64 ltac:(lia)).
  pose proof (N.div_mod (v / 64 / 64) 64 ltac:(lia)).
  pose proof (N.div_mod (v / 64 / 64 / 64) 64 ltac:(lia)).
  assert (v / 64 / 64 / 64 / 64 = 0).
  { rewrite !N.Div0.div_div. apply N.div_small. lia. }
  lia.
Qed.

(** The three bytes of a packed group. *)
Lemma unpack_bytes a b c :
  let v := N.lor (N.lor (N.shiftl (N_of_ascii a) 16)
                        (N.shiftl (N_of_ascii b) 8)) (N_of_ascii c) in
  (v < 16777216) /\
  byte (N.shiftr v 16) = a /\ byte (N.shiftr v 8) = b /\ byte v = c.
Proof.
  intros v. subst v.
  pose proof (N_ascii_bounded a). pose proof (N_ascii_bounded b).
  pose proof (N_ascii_bounded c).
  rewrite pack_bytes by done.
  set (A := N_of_ascii a) in *. set (B := N_of_ascii b) in *.
  set (C := N_of_ascii c) in *.
  split; [lia|].
  unfold byte. change 0xff with (N.ones 8).
  rewrite !N.land_ones, !N.shiftr_div_pow2.
  change (2 ^ 16) with 65536. change (2 ^ 8) with 256.
  replace ((A * 65536 + B * 256 + C) / 65536) with A.
  2:{ apply (N.div_unique _ _ _ (B * 256 + C)); lia. }
  replace ((A * 65536 + B * 256 + C) / 256) with (A * 256 + B).
  2:{ apply (N.div_unique _ _ _ C); lia. }
  replace ((A * 256 + B) mod 256) with B.
  2:{ apply (N.mod_unique _ _ A); lia. }
  replace ((A * 65536 + B * 256 + C) mod 256) with C.
  2:{ apply (N.mod_unique _ _ (A * 256 + B)); lia. }
  rewrite (N.mod_small A) by done.
  subst A B C. by rewrite !ascii_N_embedding.
Qed.

(** A final group of one byte: two digits, the rest of the quantum zero. *)
Lemma quantum_one a :
  let val := N.shiftl (N_of_ascii a) 16 in
  base64.quantum_bytes [N.land (N.shiftr val 18) 0x3f;
                        N.land (N.shiftr val 12) 0x3f] = [a].
Proof.
  intros val.
  destruct (unpack_bytes a "000" "000") as (Hv & Ha & _).
  change (N_of_ascii "000") with 0 in *.
  rewrite N.shiftl_0_l, !N.lor_0_r in *. fold val in Hv, Ha.
  assert (Hs2 : N.land (N.shiftr val 6) 0x3f = 0).
  { rewrite digit_div. subst val. rewrite N.shiftl_mul_pow2.
    change (2 ^ 16) with (1024 * 2 ^ 6).
    rewrite N.mul_assoc, N.div_mul by done.
    change 1024 with (16 * 64). by rewrite N.mul_assoc, N.Div0.mod_mul. }
  assert (Hs3 : N.land val 0x3f = 0).
  { rewrite <- (N.shiftr_0_r val), digit_div. subst val.
    rewrite N.shiftl_mul_pow2, N.div_1_r.
    change (2 ^ 16) with (1024 * 64). by rewrite N.mul_assoc, N.Div0.mod_mul. }
  pose proof (regroup val Hv) as Hq. rewrite Hs2, Hs3 in Hq.
  unfold base64.quantum_bytes. cbn [length Nat.sub firstn].
  change (base64.quantum_val [?s0; ?s1])
    with (base64.quantum_val [s0; s1; 0; 0]).
  by rewrite Hq, Ha.
Qed.

(** A final group of two bytes: three digits. *)
Lemma quantum_two a b :
  let val := N.lor (N.shiftl (N_of_ascii a) 16) (N.shiftl (N_of_ascii b) 8) in
  base64.quantum_bytes [N.land (N.shiftr val 18) 0x3f;
                        N.land (N.shiftr val 12) 0x3f;
                        N.land (N.shiftr val 6) 0x3f] = [a; b].
Proof.
  intros val.
  destruct (unpack_bytes a b "000") as (Hv & Ha & Hb & _).
  change (N_of_ascii "000") with 0 in *.
  rewrite N.lor_0_r in *. fold val in Hv, Ha, Hb.
  assert (Hs3 : N.land val 0x3f = 0).
  { rewrite <- (N.shiftr_0_r val), digit_div. subst val.
    rewrite <- (N.lor_0_r (N.lor _ _)), pack_bytes
      by (try apply N_ascii_bounded; done).
    rewrite N.div_1_r, N.add_0_r.
    replace (N_of_ascii a * 65536 + N_of_ascii b * 256)
      with ((N_of_ascii a * 1024 + N_of_ascii b * 4) * 64) by lia.
    by rewrite N.Div0.mod_mul. }
  pose proof (regroup val Hv) as Hq. rewrite Hs3 in Hq.
  unfold base64.quantum_bytes. cbn [length Nat.sub firstn].
  change (base64.quantum_val [?s0; ?s1; ?s2])
    with (base64.quantum_val [s0; s1; s2; 0]).
  by rewrite Hq, Ha, Hb.
Qed.

Lemma quantum_three a b c :
  let val := N.lor (N.lor (N.shiftl (N_of_ascii a) 16)
                          (N.shiftl (N_of_ascii b) 8)) (N_of_ascii c) in
  base64.quantum_bytes [N.land (N.shiftr val 18) 0x3f;
                        N.land (N.shiftr val 12) 0x3f;
                        N.land (N.shiftr val 6) 0x3f;
                        N.land val 0x3f] = [a; b; c].
Proof.
  intros val. destruct (unpack_bytes a b c) as (Hv & Ha & Hb & Hc).
  fold val in Hv, Ha, Hb, Hc.
  unfold base64.quantum_bytes. cbn [length Nat.sub firstn].
  rewrite (regroup val Hv). by rewrite Ha, Hb, Hc.
Qed.

(** Lists, three elements at a time. *)
Lemma list_ind3 {A} (P : list A -> Prop) :
  P [] -> (forall a, P [a]) -> (forall a b, P [a; b]) ->
  (forall a b c l, P l -> P (a :: b :: c :: l)) ->
  forall l, P l.
Proof.
  intros H0 H1 H2 H3.
  fix IH 1.
  intros [|a [|b [|c l]]]; [apply H0 | apply H1 | apply H2 | apply H3, IH].
Qed.

Lemma decode_loop_encode src :
  base64.decode_loop (base64.EncodeToString_bytes src) [] = Some src.
Proof.
  induction src as [|a|a b|a b c src IH] using list_ind3.
  - reflexivity.
  - cbn [base64.EncodeToString_bytes].
    rewrite !decode_loop_digit by apply land_63_lt. cbn [app length Nat.eqb].
    rewrite decode_loop_pad2. f_equal. apply quantum_one.
  - cbn [base64.EncodeToString_bytes].
    rewrite !decode_loop_digit by apply land_63_lt. cbn [app length Nat.eqb].
    rewrite decode_loop_pad1. f_equal. apply quantum_two.
  - cbn [base64.EncodeToString_bytes].
    rewrite !decode_loop_digit by apply land_63_lt. cbn [app length Nat.eqb].
    rewrite IH. cbn [option_map]. f_equal.
    by rewrite quantum_three.
Qed.

Lemma DecodeString_EncodeToString src :
  base64.DecodeString (base64.EncodeToString src) = Ok src.
Proof.
  unfold base64.DecodeString, base64.EncodeToString.
  by rewrite list_ascii_of_string_of_list_ascii, decode_loop_encode.
Qed.

(** The only failure of [DecodeString]. *)
Lemma DecodeString_error s e :
  base64.DecodeString s = Panic e -> e = CorruptInputError.
Proof.
  unfold base64.DecodeString. destruct (base64.decode_loop _ _); congruence.
Qed.

End base64_facts.

(** ** CFB: decryption undoes encryption *)

Section cipher_facts.

Import cipher.

(** The stream has the length of its source. *)
Lemma XORKeyStream_length x src : length (XORKeyStream x src) = length src.
Proof.
  revert x. induction src as [|s src IH]; intros x; [done|].
  cbn [XORKeyStream length]. by rewrite IH.
Qed.

(** From a common state of the register, both directions keep the same
    register: it is fed the ciphertext in either case. *)
Lemma XORKeyStream_decrypt_encrypt blk nxt o u src :
  XORKeyStream {| b := blk; next := nxt; out := o; outUsed := u;
                  decrypt := true |}
    (XORKeyStream {| b := blk; next := nxt; out := o; outUsed := u;
                     decrypt := false |} src) = src.
Proof.
  revert nxt o u. induction src as [|s src IH]; intros nxt o u; [done|].
  cbn [XORKeyStream b next out outUsed decrypt].
  destruct (u =? length o)%nat;
    cbn [b next out outUsed decrypt];
    by rewrite byte_xor_cancel, IH.
Qed.

Lemma CFB_round_trip block iv src :
  XORKeyStream (NewCFBDecrypter block iv)
    (XORKeyStream (NewCFBEncrypter block iv) src) = src.
Proof. apply XORKeyStream_decrypt_encrypt. Qed.

End cipher_facts.

(** ** The address codec *)

Lemma NewCipher_valid key :
  valid_key key ->
  aes.NewCipher key =
    Ok {| aes.enc := aes.expandKey key; aes.rounds := length key / 4 + 6 |}.
Proof.
  unfold aes.NewCipher. intros [H | [H | H]]; rewrite H; reflexivity.
Qed.

(** The only failure of [aes.NewCipher]. *)
Lemma NewCipher_error key e :
  aes.NewCipher key = Panic e -> e = KeySizeError.
Proof.
  unfold aes.NewCipher.
  repeat match goal with
         | |- context [match ?n with O => _ | S _ => _ end] => destruct n
         end; congruence.
Qed.

(** [decode] after its two library calls have succeeded. *)
Lemma decode_checks key salt line data block :
  base64.DecodeString (string_of_list_ascii line) = Ok data ->
  aes.NewCipher key = Ok block ->
  decode key salt line =
    if length data <? aes.BlockSize then Panic ErrCiphertextTooShort
    else
      let text := plaintext block data in
      if length text <? length salt then Panic ErrSaltCheckFailed
      else if negb (bytes_Equal (drop (length text - length salt) text) salt)
           then Panic ErrSaltNotMatch
           else Ok (string_of_list_ascii
                      (take (length text - length salt) text)).
Proof. intros Hd Hc. unfold decode. rewrite Hd, Hc. reflexivity. Qed.

(** The two salt checks pass exactly on the plaintexts that end with the
    salt. *)
Lemma salt_check_suffix (text salt : bytes) :
  (length text <? length salt) = false /\
  bytes_Equal (drop (length text - length salt) text) salt = true
  <-> salt `suffix_of` text.
Proof.
  rewrite Nat.ltb_ge, bytes_Equal_true. split.
  - intros [_ Heq]. exists (take (length text - length salt) text).
    by rewrite <- (take_drop (length text - length salt) text) at 1;
      rewrite Heq.
  - intros [k ->]. rewrite length_app. split; [lia|].
    replace (length k + length salt - length salt) with (length k) by lia.
    apply drop_app_length.
Qed.

(** With an empty salt both salt checks pass on every plaintext. *)
Lemma decode_empty_salt_no_salt_error key line :
  decode key [] line <> Panic ErrSaltCheckFailed /\
  decode key [] line <> Panic ErrSaltNotMatch.
Proof.
  destruct (base64.DecodeString (string_of_list_ascii line))
    as [data|e] eqn:Hd.
  2:{ unfold decode. rewrite Hd. apply DecodeString_error in Hd as ->.
      by split. }
  destruct (aes.NewCipher key) as [block|e] eqn:Hc.
  2:{ unfold decode. rewrite Hd, Hc. apply NewCipher_error in Hc as ->.
      by split. }
  rewrite (decode_checks key [] line data block Hd Hc).
  destruct (length data <? aes.BlockSize); [by split|].
  cbn zeta. cbn [length]. rewrite Nat.sub_0_r, drop_all.
  change (length ?l <? 0) with false. by split.
Qed.

(** C1 (round trip).  For every non-empty destination address [D] without a
    newline, every key of a valid length, every salt and every IV of one
    block, the token
    [base64_standard_encode(IV || AES_CFB_encrypt(key, IV, D || salt))]
    exists and [decode], with the same key and salt, succeeds on it and
    returns exactly [D].  (The proof does not use the two conditions on
    [D].) *)
Theorem C1_round_trip (key salt iv : bytes) (D : string) :
  D <> ""%string ->
  "010"%char ∉ list_ascii_of_string D ->
  valid_key key ->
  length iv = aes.BlockSize ->
  exists token,
    encode key salt iv D = Ok token /\
    decode key salt (list_ascii_of_string token) = Ok D.
Proof.
  intros _ _ Hkey Hiv. unfold encode. rewrite (NewCipher_valid key Hkey).
  eexists. split; [reflexivity|].
  set (block := {| aes.enc := _ |}).
  set (ct := cipher.XORKeyStream _ _).
  rewrite (decode_checks key salt _ (iv ++ ct) block).
  - (* the payload is the IV followed by the ciphertext *)
    assert (Hlen : (length (iv ++ ct) <? aes.BlockSize) = false).
    { apply Nat.ltb_ge. rewrite length_app. lia. }
    rewrite Hlen. unfold plaintext. rewrite <- Hiv.
    rewrite take_app_length, drop_app_length. unfold ct.
    rewrite CFB_round_trip. cbn zeta.
    (* the plaintext ends with the salt *)
    destruct (salt_check_suffix (list_ascii_of_string D ++ salt) salt)
      as [_ [Hl He]]; [by eexists|].
    rewrite Hl, He. cbn [negb]. rewrite length_app.
    replace (length (list_ascii_of_string D) + length salt - length salt)
      with (length (list_ascii_of_string D)) by lia.
    by rewrite take_app_length, string_of_list_ascii_of_string.
  - rewrite string_of_list_ascii_of_string.
    apply DecodeString_EncodeToString.
  - by apply NewCipher_valid.
Qed.

Lemma C1_round_trip_witness :
  exists token,
    encode key128 salt_v1 iv_0_15 "127.0.0.1:8080" = Ok token /\
    decode key128 salt_v1 (list_ascii_of_string token)
      = Ok "127.0.0.1:8080"%string.
Proof.
  apply C1_round_trip.
  - discriminate.
  - apply (bool_decide_unpack _). vm_compute. exact I.
  - left. reflexivity.
  - vm_compute. reflexivity.
Defined.

(** C2, as the specification states it, fails on two tokens.  The first
    decodes to the sixteen bytes of an IV and nothing more: the remainder is
    empty and, with the empty salt, [decode] returns the empty address.  The
    second decodes to 29 bytes: 13 bytes, less than a block, remain after
    the IV, and [decode] returns the address they encrypt.  Neither stops
    with the truncation error. *)
Lemma C2_counterexample :
  let line0 := list_ascii_of_string "AAECAwQFBgcICQoLDA0ODw==" in
  let line1 :=
    list_ascii_of_string "AAECAwQFBgcICQoLDA0OD5FJt8DMj5Anw62jn7U=" in
  (exists data,
     base64.DecodeString (string_of_list_ascii line0) = Ok data /\
     drop aes.BlockSize data = [] /\
     decode key128 [] line0 = Ok ""%string) /\
  (exists data,
     base64.DecodeString (string_of_list_ascii line1) = Ok data /\
     length (drop aes.BlockSize data) = 13 /\
     decode key128 salt_v1 line1 = Ok "10.0.0.1:80"%string).
Proof. split; eexists; repeat split; vm_compute; reflexivity. Qed.

(** C2 (truncation check, amended).  For every token whose base64 decoding
    succeeds, and a key of a valid length, [decode] fails with the
    truncation error ("ciphertext too short") exactly when the decoded
    payload is shorter than one block, that is, when the IV itself is
    incomplete; a payload of at least one block passes this step, whatever
    remains after the IV. *)
Theorem C2_truncation (key salt line data : bytes) :
  valid_key key ->
  base64.DecodeString (string_of_list_ascii line) = Ok data ->
  decode key salt line = Panic ErrCiphertextTooShort
  <-> length data < aes.BlockSize.
Proof.
  intros Hkey Hdata.
  rewrite (decode_checks key salt line data _ Hdata (NewCipher_valid key Hkey)).
  destruct (Nat.ltb_spec (length data) aes.BlockSize) as [Hlt | Hge].
  - by split.
  - cbn zeta. split; [|lia].
    repeat match goal with |- context [if ?c then _ else _] => destruct c end;
      discriminate.
Qed.

Lemma C2_truncation_witness :
  decode key128 salt_v1 (list_ascii_of_string "AAECAwQFBgcICQoLDA0O")
    = Panic ErrCiphertextTooShort
  <-> length (hex "000102030405060708090a0b0c0d0e") < aes.BlockSize.
Proof.
  apply C2_truncation.
  - left. reflexivity.
  - vm_compute. reflexivity.
Defined.

(** C3 (salt verification and strip).  For every token that passes base64
    decoding, the construction of the cipher and the length check, [decode]
    succeeds if and only if the decrypted plaintext ends with the salt; the
    address it then returns is the plaintext without that suffix, and when
    the plaintext does not end with the salt [decode] fails with one of the
    two salt errors and returns no address. *)
Theorem C3_salt_check (key salt line data : bytes) (block : aes.Cipher) :
  base64.DecodeString (string_of_list_ascii line) = Ok data ->
  aes.NewCipher key = Ok block ->
  aes.BlockSize <= length data ->
  let text := plaintext block data in
  ((exists addr, decode key salt line = Ok addr) <-> salt `suffix_of` text) /\
  (forall addr, decode key salt line = Ok addr ->
                text = list_ascii_of_string addr ++ salt) /\
  (~ salt `suffix_of` text ->
   decode key salt line = Panic ErrSaltCheckFailed \/
   decode key salt line = Panic ErrSaltNotMatch).
Proof.
  intros Hdata Hblock Hlen text.
  rewrite (decode_checks key salt line data block Hdata Hblock).
  destruct (Nat.ltb_spec (length data) aes.BlockSize) as [?|_]; [lia|].
  cbn zeta. fold text.
  pose proof (salt_check_suffix text salt) as Hsuf.
  destruct (length text <? length salt) eqn:Hshort.
  { repeat split.
    - by intros [? ?].
    - intros Hs. apply Hsuf in Hs as [? _]. done.
    - done.
    - auto. }
  destruct (bytes_Equal _ salt) eqn:Heq; cbn [negb].
  - assert (Hs : salt `suffix_of` text) by (by apply Hsuf).
    repeat split; eauto.
    + intros addr [= <-]. rewrite list_ascii_of_string_of_list_ascii.
      apply bytes_Equal_true in Heq. rewrite <- Heq at 2.
      by rewrite take_drop.
    + done.
  - repeat split.
    + by intros [? ?].
    + intros Hs. apply Hsuf in Hs as [_ ?]. congruence.
    + done.
    + auto.
Qed.

Lemma C3_salt_check_witness :
  let line :=
    list_ascii_of_string "AAECAwQFBgcICQoLDA0OD5FJt8DMj5Anw62jn7U=" in
  let data := iv_0_15 ++ hex "9149b7c0cc8f9027c3ada39fb5" in
  let block := {| aes.enc := aes.expandKey key128; aes.rounds := 10 |} in
  let text := plaintext block data in
  ((exists addr, decode key128 salt_v1 line = Ok addr)
   <-> salt_v1 `suffix_of` text) /\
  (forall addr, decode key128 salt_v1 line = Ok addr ->
                text = list_ascii_of_string addr ++ salt_v1) /\
  (~ salt_v1 `suffix_of` text ->
   decode key128 salt_v1 line = Panic ErrSaltCheckFailed \/
   decode key128 salt_v1 line = Panic ErrSaltNotMatch).
Proof.
  intros line data block.
  apply (C3_salt_check key128 salt_v1 line data block).
  - vm_compute. reflexivity.
  - vm_compute. reflexivity.
  - vm_compute. lia.
Defined.

(** C10 (empty salt).  With the empty salt and a key of a valid length,
    [decode] succeeds on every token whose base64 decoding gives a payload
    of at least one block, and returns the whole decrypted remainder as the
    address; and with the empty salt no token and no key make [decode] fail
    with a salt error. *)
Theorem C10_empty_salt (key line data : bytes) :
  valid_key key ->
  base64.DecodeString (string_of_list_ascii line) = Ok data ->
  aes.BlockSize <= length data ->
  (exists block,
     aes.NewCipher key = Ok block /\
     decode key [] line = Ok (string_of_list_ascii (plaintext block data))) /\
  (forall key' line',
     decode key' [] line' <> Panic ErrSaltCheckFailed /\
     decode key' [] line' <> Panic ErrSaltNotMatch).
Proof.
  intros Hkey Hdata Hlen. split.
  - eexists. split; [by apply NewCipher_valid|].
    rewrite (decode_checks key [] line data _ Hdata (NewCipher_valid key Hkey)).
    destruct (Nat.ltb_spec (length data) aes.BlockSize) as [?|_]; [lia|].
    cbn zeta. cbn [length].
    rewrite Nat.sub_0_r, drop_all, take_ge by done. reflexivity.
  - apply decode_empty_salt_no_salt_error.
Qed.

Lemma C10_empty_salt_witness :
  let line := list_ascii_of_string "AAECAwQFBgcICQoLDA0OD5FJt8DMj5Anw62j" in
  let data := iv_0_15 ++ hex "9149b7c0cc8f9027c3ada3" in
  (exists block,
     aes.NewCipher key128 = Ok block /\
     decode key128 [] line = Ok (string_of_list_ascii (plaintext block data)))
  /\
  (forall key' line',
     decode key' [] line' <> Panic ErrSaltCheckFailed /\
     decode key' [] line' <> Panic ErrSaltNotMatch).
Proof.
  intros line data. apply (C10_empty_salt key128 line data).
  - left. reflexivity.
  - vm_compute. reflexivity.
  - vm_compute. lia.
Defined.

(** ** The address cache *)

Section cache_facts.

Implicit Types (m : gmap string string) (key val : string).

(** The copy loop adds the entries to the target. *)
Lemma copy_entries_union (entries : list (string * string)) m2 :
  NoDup entries.*1 ->
  copy_entries entries m2 = list_to_map entries ∪ m2.
Proof.
  revert m2. induction entries as [|[k v] entries IH]; intros m2 Hnd.
  - cbn. by rewrite (left_id_L ∅ (∪)).
  - apply NoDup_cons in Hnd as [Hk Hnd].
    cbn [copy_entries foldl fst snd].
    fold (copy_entries entries (<[k:=v]> m2)).
    rewrite IH by done. cbn [list_to_map foldr uncurry].
    rewrite <- insert_union_l.
    by rewrite insert_union_r by (by apply not_elem_of_list_to_map_1).
Qed.

(** Whatever order the iteration visits the entries in, the copy of a map
    into an empty one is the map. *)
Lemma copy_entries_any_order (entries : list (string * string)) m1 :
  entries ≡ₚ map_to_list m1 -> copy_entries entries ∅ = m1.
Proof.
  intros Hp.
  assert (Hnd : NoDup entries.*1).
  { rewrite Hp. apply NoDup_fst_map_to_list. }
  rewrite copy_entries_union, (right_id_L ∅ (∪)) by done.
  rewrite (list_to_map_proper _ _ Hnd Hp). apply list_to_map_to_list.
Qed.

Lemma writeBackendAddrCache_spec key val m1 :
  writeBackendAddrCache key val m1 =
    if (Z.of_nat (size m1) <? _MaxBackendAddrCacheCount)%Z
    then <[key := val]> m1
    else {[key := val]}.
Proof.
  unfold writeBackendAddrCache.
  destruct (Z.of_nat (size m1) <? _MaxBackendAddrCacheCount)%Z.
  - by rewrite (copy_entries_any_order _ m1).
  - apply insert_empty.
Qed.

(** After a write the key hits with the value written. *)
Lemma read_after_write key val m1 :
  readBackendAddrCache key (writeBackendAddrCache key val m1) = Some val.
Proof.
  unfold readBackendAddrCache. rewrite writeBackendAddrCache_spec.
  destruct (_ <? _)%Z; [apply lookup_insert_eq | apply lookup_singleton_eq].
Qed.

Lemma size_insert_le key val m : size (<[key := val]> m) <= S (size m).
Proof. rewrite map_size_insert. destruct (m !! key); cbn; lia. Qed.

(** No write stores a map with more than the maximum number of entries. *)
Lemma writeBackendAddrCache_size key val m1 :
  (Z.of_nat (size (writeBackendAddrCache key val m1))
     <= _MaxBackendAddrCacheCount)%Z.
Proof.
  rewrite writeBackendAddrCache_spec.
  destruct (Z.ltb_spec (Z.of_nat (size m1)) _MaxBackendAddrCacheCount).
  - pose proof (size_insert_le key val m1). lia.
  - rewrite map_size_singleton. unfold _MaxBackendAddrCacheCount. lia.
Qed.

Lemma reachable_size m :
  reachable m -> (Z.of_nat (size m) <= _MaxBackendAddrCacheCount)%Z.
Proof.
  destruct 1.
  - unfold init. rewrite map_size_empty. unfold _MaxBackendAddrCacheCount. lia.
  - apply writeBackendAddrCache_size.
Qed.

Lemma reachable_run_writes ws m :
  reachable m -> reachable (run_writes ws m).
Proof.
  revert m. induction ws as [|[k v] ws IH]; intros m Hm; [done|].
  apply IH. by constructor.
Qed.

(** The reachable states are the results of the runs of writes. *)
Lemma reachable_is_run m :
  reachable m <-> exists ws, m = run_writes ws init.
Proof.
  split.
  - induction 1 as [|key val m _ [ws ->]].
    + by exists [].
    + exists (ws ++ [(key, val)]). unfold run_writes. by rewrite foldl_app.
  - intros [ws ->]. apply reachable_run_writes, reachable_init.
Qed.

Lemma run_writes_app ws1 ws2 m :
  run_writes (ws1 ++ ws2) m = run_writes ws2 (run_writes ws1 m).
Proof. apply foldl_app. Qed.

(** Distinct keys that all hit are at most as many as the entries. *)
Lemma visible_keys_size (keys : list string) m :
  NoDup keys ->
  (forall key, key ∈ keys -> is_Some (readBackendAddrCache key m)) ->
  length keys <= size m.
Proof.
  intros Hnd Hhit.
  rewrite <- (size_list_to_set (C := gset string)) by done.
  rewrite <- (size_dom (D := gset string)).
  apply subseteq_size. intros k Hk.
  apply elem_of_dom, Hhit. by apply elem_of_list_to_set in Hk.
Qed.

Lemma key_no_inj i j : key_no i = key_no j -> i = j.
Proof.
  unfold key_no. intros H.
  apply (f_equal list_ascii_of_string) in H.
  rewrite !list_ascii_of_string_of_list_ascii in H.
  apply (f_equal length) in H. by rewrite !length_replicate in H.
Qed.

Lemma fill_S n : fill (S n) = fill n ++ [(key_no n, ""%string)].
Proof. unfold fill. by rewrite seq_S, fmap_app. Qed.

(** While there is room, [n] writes of distinct keys give [n] entries. *)
Lemma run_fill n :
  (Z.of_nat n <= _MaxBackendAddrCacheCount)%Z ->
  size (run_writes (fill n) init) = n /\
  forall key, is_Some (run_writes (fill n) init !! key) ->
              exists i, i < n /\ key = key_no i.
Proof.
  induction n as [|n IH]; intros Hn.
  - split; [done|]. intros key [? H].
    change (run_writes (fill 0) init) with (∅ : gmap string string) in H.
    by rewrite lookup_empty in H.
  - destruct IH as [Hsize Hkeys]; [lia|].
    rewrite fill_S, run_writes_app. cbn [run_writes foldl fst snd].
    rewrite writeBackendAddrCache_spec, Hsize.
    destruct (Z.ltb_spec (Z.of_nat n) _MaxBackendAddrCacheCount); [|lia].
    split.
    + rewrite map_size_insert_None; [by rewrite Hsize|].
      apply eq_None_not_Some. intros Hsome.
      apply Hkeys in Hsome as (i & Hi & Heq).
      apply key_no_inj in Heq. lia.
    + intros key. rewrite lookup_insert_is_Some.
      intros [<- | [_ Hsome]]; [exists n; split; [lia|done]|].
      apply Hkeys in Hsome as (i & Hi & Heq). exists i. split; [lia|done].
Qed.

End cache_facts.

(** C4 (cache insert).  For every stored map [m] and every pair
    [(key, val)], [writeBackendAddrCache key val] stores [m] with [key]
    mapped to [val] when [m] has fewer entries than
    [_MaxBackendAddrCacheCount], and stores the singleton map of the pair
    when [m] has reached that size. *)
Theorem C4_cache_insert (key val : string) (m : gmap string string) :
  writeBackendAddrCache key val m =
    if (Z.of_nat (size m) <? _MaxBackendAddrCacheCount)%Z
    then <[key := val]> m
    else {[key := val]}.
Proof.
  unfold writeBackendAddrCache.
  destruct (Z.of_nat (size m) <? _MaxBackendAddrCacheCount)%Z.
  - (* the loop has copied [m] into the new map *)
    by rewrite (copy_entries_any_order (map_to_list m) m).
  - (* the new map was left empty *)
    apply insert_empty.
Qed.

(** C5 (cache bound).  In every state of the cache reachable from the empty
    one by writes, the keys that hit are at most
    [_MaxBackendAddrCacheCount + 1]: every list of distinct keys that all
    hit is at most that long.  ([reachable_size] gives the bound without
    the [+ 1].) *)
Theorem C5_cache_bound (m : gmap string string) (keys : list string) :
  reachable m ->
  NoDup keys ->
  (forall key, key ∈ keys -> is_Some (readBackendAddrCache key m)) ->
  (Z.of_nat (length keys) <= _MaxBackendAddrCacheCount + 1)%Z.
Proof.
  intros Hm Hnd Hhit.
  pose proof (reachable_size m Hm).
  pose proof (visible_keys_size keys m Hnd Hhit).
  lia.
Qed.

Lemma C5_cache_bound_witness :
  (Z.of_nat (length ["a"%string; "b"%string])
     <= _MaxBackendAddrCacheCount + 1)%Z.
Proof.
  apply (C5_cache_bound
           (writeBackendAddrCache "b" "10.0.0.2:80"
              (writeBackendAddrCache "a" "10.0.0.1:80" init))).
  - repeat constructor.
  - apply (bool_decide_unpack _). vm_compute. exact I.
  - intros key Hkey. apply (bool_decide_unpack _).
    rewrite !elem_of_cons, elem_of_nil in Hkey.
    destruct Hkey as [-> | [-> | []]]; vm_compute; exact I.
Defined.

(** C6, as the specification states it, fails: no sequence of writes from
    the empty cache leaves [_MaxBackendAddrCacheCount + 1] entries. *)
Lemma C6_counterexample :
  ~ exists ws : list (string * string),
      Z.of_nat (size (run_writes ws init))
        = (_MaxBackendAddrCacheCount + 1)%Z.
Proof.
  intros [ws Hws].
  pose proof (reachable_size _ (reachable_run_writes ws init reachable_init)).
  lia.
Qed.

(** C6 (cache slack, amended).  The size check is made on the map loaded
    before the insertion, and only a map with fewer than
    [_MaxBackendAddrCacheCount] entries is copied: no sequence of writes
    from the empty cache leaves more than [_MaxBackendAddrCacheCount]
    entries, some sequence leaves exactly that many, and the next write
    then clears them, storing the new entry alone. *)
Theorem C6_cache_fills_to_max :
  (forall ws : list (string * string),
     (Z.of_nat (size (run_writes ws init)) <= _MaxBackendAddrCacheCount)%Z) /\
  exists ws : list (string * string),
    Z.of_nat (size (run_writes ws init)) = _MaxBackendAddrCacheCount /\
    forall key val,
      writeBackendAddrCache key val (run_writes ws init) = {[key := val]}.
Proof.
  split.
  { intros ws. apply reachable_size, reachable_run_writes, reachable_init. }
  assert (Hmax : (0 <= _MaxBackendAddrCacheCount)%Z)
    by (unfold _MaxBackendAddrCacheCount; lia).
  exists (fill (Z.to_nat _MaxBackendAddrCacheCount)).
  destruct (run_fill (Z.to_nat _MaxBackendAddrCacheCount)) as [Hsize _];
    [lia|].
  split; [lia|].
  intros key val. rewrite writeBackendAddrCache_spec, Hsize.
  destruct (Z.ltb_spec (Z.of_nat (Z.to_nat _MaxBackendAddrCacheCount))
              _MaxBackendAddrCacheCount); [lia|done].
Qed.

(** ** The handler *)

Lemma no_write_in_dial (k v addr : string) (evs : list event) :
  evs = [Dial addr; Relay addr] \/ evs = [Dial addr] \/ evs = [] ->
  CacheWrite k v ∉ evs.
Proof.
  intros [-> | [-> | ->]] Hin;
    rewrite ?elem_of_cons, ?elem_of_nil in Hin;
    repeat (destruct Hin as [Hin | Hin]; [discriminate|]); done.
Qed.

(** C7 (failed tokens are never cached).  For every connection whose header
    line fails any step of [decode], the handler leaves the cache as it
    was, and no call of [writeBackendAddrCache] is among its events. *)
Theorem C7_failed_token_not_cached (key salt : bytes) (c : conn)
    (cache : gmap string string) (e : error) :
  decode key salt (line c) = Panic e ->
  (handle key salt c cache).1.2 = cache /\
  forall k v, CacheWrite k v ∉ (handle key salt c cache).2.
Proof.
  intros Hdec. unfold handle, resolve.
  destruct (read_err c || isPrefix c).
  { split; [done|]. intros k v. by apply (no_write_in_dial k v ""); auto. }
  destruct (readBackendAddrCache _ cache) as [addr|].
  - destruct (dial_ok c addr); (split; [done|]); intros k v; cbn;
      apply (no_write_in_dial k v addr); auto.
  - rewrite Hdec. split; [done|]. intros k v. cbn.
    by apply (no_write_in_dial k v ""); auto.
Qed.

Lemma C7_failed_token_not_cached_witness :
  let c := {| line := list_ascii_of_string "not base64!"; isPrefix := false;
              read_err := false; dial_ok := fun _ => true |} in
  (handle key128 salt_v1 c init).1.2 = init /\
  forall k v, CacheWrite k v ∉ (handle key128 salt_v1 c init).2.
Proof.
  apply (C7_failed_token_not_cached _ _ _ _ CorruptInputError).
  vm_compute. reflexivity.
Defined.

(** A token that decodes is written to the cache on a miss. *)
Lemma resolve_miss key salt ln cache addr :
  readBackendAddrCache (string_of_list_ascii ln) cache = None ->
  decode key salt ln = Ok addr ->
  resolve key salt ln cache =
    (Ok addr, writeBackendAddrCache (string_of_list_ascii ln) addr cache,
     [CacheWrite (string_of_list_ascii ln) addr]).
Proof. intros Hmiss Hdec. unfold resolve. by rewrite Hmiss, Hdec. Qed.

(** Every run of the handler ends in a panic, which its deferred function
    recovers. *)
Lemma handle_recovered key salt c cache :
  exists e, go true (handle key salt c cache).1.1 = Recovered e.
Proof.
  unfold handle.
  destruct (read_err c || isPrefix c); [by eexists|].
  destruct (resolve key salt (line c) cache) as [[[addr|e] cache'] evs];
    [|by eexists].
  destruct (dial_ok c addr); by eexists.
Qed.

(** The failures of a connection, each with the panic that ends its
    handler. *)
Lemma handle_failures key salt c cache :
  (read_err c || isPrefix c = true ->
   (handle key salt c cache).1.1 = Panic ErrReadLine) /\
  (forall e,
     read_err c || isPrefix c = false ->
     readBackendAddrCache (string_of_list_ascii (line c)) cache = None ->
     decode key salt (line c) = Panic e ->
     (handle key salt c cache).1.1 = Panic e) /\
  (forall addr,
     read_err c || isPrefix c = false ->
     (resolve key salt (line c) cache).1.1 = Ok addr ->
     dial_ok c addr = false ->
     (handle key salt c cache).1.1 = Panic ErrDial).
Proof.
  unfold handle. repeat split.
  - by intros ->.
  - intros e -> Hmiss Hdec. unfold resolve. by rewrite Hmiss, Hdec.
  - intros addr ->.
    destruct (resolve key salt (line c) cache) as [[r cache'] evs]. cbn.
    by intros -> ->.
Qed.

(** The loop goes on after every connection. *)
Lemma TCPServer_accept key salt c rest cache :
  (TCPServer key salt (Accept c :: rest) cache).1.1 =
  (TCPServer key salt rest (handle key salt c cache).1.2).1.1.
Proof.
  cbn [TCPServer].
  destruct (handle_recovered key salt c cache) as [e He].
  destruct (handle key salt c cache) as [[r cache'] evs]. cbn in He |- *.
  rewrite He.
  by destruct (TCPServer key salt rest cache') as [[p cache''] evs'].
Qed.

(** C9 (failure scoping).  Whatever fails in a connection (the header read,
    an over-long line, the decoding, the dial), its handler ends in a panic
    that the handler itself recovers; the accept loop then goes on with the
    next connection; and the process has exited exactly when a call of
    [Accept] has failed: it never dies of a connection. *)
Theorem C9_failure_scoping (key salt : bytes) :
  (forall c cache, exists e, go true (handle key salt c cache).1.1 = Recovered e)
  /\
  (forall c rest cache,
     (TCPServer key salt (Accept c :: rest) cache).1.1 =
     (TCPServer key salt rest (handle key salt c cache).1.2).1.1)
  /\
  (forall incoming cache,
     match (TCPServer key salt incoming cache).1.1 with
     | Accepting => AcceptError ∉ incoming
     | Exited => AcceptError ∈ incoming
     | Crashed _ => False
     end).
Proof.
  split; [apply handle_recovered|]. split; [apply TCPServer_accept|].
  intros incoming. induction incoming as [|[c|] rest IH]; intros cache.
  - cbn. apply not_elem_of_nil.
  - rewrite TCPServer_accept. specialize (IH (handle key salt c cache).1.2).
    destruct (TCPServer key salt rest _).1.1; [| |done].
    + rewrite not_elem_of_cons. by split.
    + by right.
  - cbn. by left.
Qed.

(** ** The relay *)

(** The schedule in which the handler reaches [wg.Wait] before either pipe
    has called [wg.Add]: the counter is still zero, so [wg.Wait] returns. *)
Lemma relay_wait_first :
  run [Handler; Handler; Handler] relay_start =
    Some {| wg := 0; to_client := Spawned; to_backend := Spawned;
            pc := AfterWait |}.
Proof. reflexivity. Qed.

(** The pipes then start copying after the relay is over. *)
Lemma relay_copy_after_return :
  run [Handler; Handler; Handler; PipeToClient; PipeToBackend] relay_start =
    Some {| wg := 2; to_client := Copying; to_backend := Copying;
            pc := AfterWait |}.
Proof. reflexivity. Qed.

(** C8 (relay completion) does not hold of the program: it is not the case
    that, in every schedule, the handler is past [wg.Wait] only when both
    pipes have finished.  The pipes call [wg.Add] themselves, after they
    have been started, so [wg.Wait] can find the counter at zero before
    they run ([relay_wait_first]). *)
Theorem C8_relay_returns_early :
  ~ forall (schedule : list goroutine) (s : relay),
      run schedule relay_start = Some s ->
      pc s = AfterWait ->
      to_client s = Finished /\ to_backend s = Finished.
Proof.
  intros H.
  destruct (H [Handler; Handler; Handler] _ relay_wait_first eq_refl) as [? _].
  discriminate.
Qed.

Lemma waiting_step g s s' : waiting s -> step g s = Some s' -> waiting s'.
Proof.
  unfold waiting, added. destruct s as [n p1 p2 h]. cbn.
  intros (Hwg & Hp1 & Hp2 & Hpc) Hstep.
  destruct g; cbn in Hstep.
  - destruct Hpc as [-> | (-> & _)]; [|done].
    destruct (Z.eqb_spec n 0) as [Hn|]; [|done].
    injection Hstep as <-. cbn.
    destruct Hp1 as [-> | ->], Hp2 as [-> | ->]; cbn in *; try lia; auto 10.
  - destruct Hp1 as [-> | ->]; [|done]. injection Hstep as <-. cbn in *.
    repeat split; auto; [lia|].
    destruct Hpc as [? | (_ & ? & _)]; [auto|done].
  - destruct Hp2 as [-> | ->]; [|done]. injection Hstep as <-. cbn in *.
    repeat split; auto; [lia|].
    destruct Hpc as [? | (_ & _ & ?)]; [auto|done].
Qed.

Lemma waiting_run schedule s s' :
  waiting s -> run schedule s = Some s' -> waiting s'.
Proof.
  revert s. induction schedule as [|g schedule IH]; intros s Hs; cbn.
  - by intros [= <-].
  - destruct (step g s) as [s1|] eqn:Hstep; [|done]. cbn.
    apply IH. by eapply waiting_step.
Qed.

(** Had both pipes called [wg.Add] before the handler waits, [wg.Wait]
    would return only after both have finished: the early return comes from
    the place of [wg.Add] alone. *)
Lemma wait_after_add schedule s :
  run schedule {| wg := 2; to_client := Copying; to_backend := Copying;
                  pc := AtWait |} = Some s ->
  pc s = AfterWait ->
  to_client s = Finished /\ to_backend s = Finished.
Proof.
  intros Hrun Hpc.
  eapply waiting_run in Hrun as (_ & _ & _ & [Hw | (_ & ? & ?)]);
    [congruence | done |].
  unfold waiting, added. cbn. auto 10.
Qed.

(** * Further properties *)

(** ** Reads and writes of the cache *)

Lemma write_other_keys (key val key' : string) (m : gmap string string) :
  key' <> key ->
  readBackendAddrCache key' (writeBackendAddrCache key val m) =
    if (Z.of_nat (size m) <? _MaxBackendAddrCacheCount)%Z
    then readBackendAddrCache key' m
    else None.
Proof.
  intros Hne. unfold readBackendAddrCache.
  rewrite writeBackendAddrCache_spec.
  destruct (_ <? _)%Z.
  - by rewrite lookup_insert_ne.
  - by rewrite lookup_singleton_ne.
Qed.

(** X1 (read after write).  After [writeBackendAddrCache key val] a read of
    [key] hits with [val]; a read of another key gives what it gave before
    when the map loaded by the write had fewer than
    [_MaxBackendAddrCacheCount] entries, and misses when it had reached that
    size: the flush drops every other entry. *)
Theorem X1_cache_read_write (key val key' : string)
    (m : gmap string string) :
  readBackendAddrCache key' (writeBackendAddrCache key val m) =
    if decide (key' = key) then Some val
    else if (Z.of_nat (size m) <? _MaxBackendAddrCacheCount)%Z
         then readBackendAddrCache key' m
         else None.
Proof.
  case_decide as Hk.
  - subst. apply read_after_write.
  - by apply write_other_keys.
Qed.

(** X2 (a hit is the last write).  In the cache reached from the empty one
    by a sequence of writes, a key that hits was written, and the value
    read is the one of the last write of that key. *)
Theorem X2_cache_hit_is_last_write (ws : list (string * string))
    (key val : string) :
  readBackendAddrCache key (run_writes ws init) = Some val ->
  exists ws1 ws2, ws = ws1 ++ (key, val) :: ws2 /\ key ∉ ws2.*1.
Proof.
  revert val. induction ws as [|[k v] ws IH] using rev_ind; intros val.
  - unfold readBackendAddrCache, run_writes, init. cbn.
    by rewrite lookup_empty.
  - rewrite run_writes_app. cbn [run_writes foldl fst snd].
    destruct (decide (key = k)) as [->|Hne].
    + rewrite read_after_write. intros [= ->].
      exists ws, []. split; [done|]. cbn. apply not_elem_of_nil.
    + rewrite write_other_keys by done.
      destruct (_ <? _)%Z; [|done].
      intros Hhit. destruct (IH _ Hhit) as (ws1 & ws2 & -> & Hnot).
      exists ws1, (ws2 ++ [(k, v)]). split.
      * by rewrite <- app_assoc.
      * rewrite fmap_app. cbn.
        rewrite not_elem_of_app, list_elem_of_singleton. by split.
Qed.

Lemma X2_cache_hit_is_last_write_witness :
  let ws := [("a", "10.0.0.1:80"); ("b", "10.0.0.2:80");
             ("a", "10.0.0.3:80")]%string in
  exists ws1 ws2,
    ws = ws1 ++ ("a", "10.0.0.3:80")%string :: ws2 /\ "a"%string ∉ ws2.*1.
Proof.
  intros ws. apply X2_cache_hit_is_last_write. vm_compute. reflexivity.
Defined.

(** ** The cache in the handler and in the accept loop *)

Section server_facts.

Variables key salt : bytes.

Lemma cache_sound_init : cache_sound key salt init.
Proof. intros k v. unfold init. by rewrite lookup_empty. Qed.

Lemma cache_sound_write cache k v :
  cache_sound key salt cache ->
  decode key salt (list_ascii_of_string k) = Ok v ->
  cache_sound key salt (writeBackendAddrCache k v cache).
Proof.
  intros Hs Hd k' v'. rewrite writeBackendAddrCache_spec.
  destruct (_ <? _)%Z.
  - rewrite lookup_insert. case_decide; [by intros [= <-]; subst | apply Hs].
  - rewrite lookup_singleton. case_decide; [by intros [= <-]; subst | done].
Qed.

Lemma resolve_sound ln cache :
  cache_sound key salt cache ->
  (resolve key salt ln cache).1.1 = decode key salt ln /\
  cache_sound key salt (resolve key salt ln cache).1.2.
Proof.
  intros Hs. unfold resolve, readBackendAddrCache.
  destruct (cache !! string_of_list_ascii ln) as [addr|] eqn:Hhit.
  - apply Hs in Hhit. rewrite list_ascii_of_string_of_list_ascii in Hhit.
    by split.
  - destruct (decode key salt ln) as [addr|e] eqn:Hdec; [|by split].
    split; [done|]. cbn. apply cache_sound_write; [done|].
    by rewrite list_ascii_of_string_of_list_ascii.
Qed.

(** The handler changes the cache in its [resolve] step only. *)
Lemma handle_cache c cache :
  (handle key salt c cache).1.2 = cache \/
  (handle key salt c cache).1.2 = (resolve key salt (line c) cache).1.2.
Proof.
  unfold handle. destruct (read_err c || isPrefix c); [by left|]. right.
  destruct (resolve key salt (line c) cache) as [[[addr|e] cache'] evs];
    [|done].
  by destruct (dial_ok c addr).
Qed.

Lemma handle_sound c cache :
  cache_sound key salt cache ->
  cache_sound key salt (handle key salt c cache).1.2.
Proof.
  intros Hs. destruct (handle_cache c cache) as [-> | ->]; [done|].
  by apply resolve_sound.
Qed.

(** [TCPServer] after a connection: the handler, then the loop. *)
Lemma TCPServer_cons c rest cache :
  TCPServer key salt (Accept c :: rest) cache =
    let h := handle key salt c cache in
    let t := TCPServer key salt rest h.1.2 in
    (t.1.1, t.1.2, h.2 ++ t.2).
Proof.
  cbn [TCPServer].
  destruct (handle_recovered key salt c cache) as [e He].
  destruct (handle key salt c cache) as [[r cache'] evs]. cbn in He |- *.
  rewrite He.
  by destruct (TCPServer key salt rest cache') as [[p cache''] evs'].
Qed.

(** The events of a handler are a write (after a miss) and then a dial and
    a relay (after a resolution). *)
Lemma handle_trace c cache :
  let h := handle key salt c cache in
  h.2 = [] \/
  read_err c || isPrefix c = false /\
  exists addr,
    (resolve key salt (line c) cache).1.1 = Ok addr /\
    (h.2 = (resolve key salt (line c) cache).2 ++ [Dial addr] /\
     dial_ok c addr = false \/
     h.2 = (resolve key salt (line c) cache).2 ++ [Dial addr; Relay addr] /\
     dial_ok c addr = true).
Proof.
  unfold handle. destruct (read_err c || isPrefix c); [by left|].
  unfold resolve. destruct (readBackendAddrCache _ cache) as [a|]; cbn.
  - right. split; [done|]. exists a. split; [done|].
    destruct (dial_ok c a); cbn; auto.
  - destruct (decode key salt (line c)) as [a|e]; cbn; [|by left].
    right. split; [done|]. exists a. split; [done|].
    destruct (dial_ok c a); cbn; auto.
Qed.

(** X3 (the cache is sound).  When every entry of the cache maps a header
    line to the address the line decodes to, the same holds of the cache
    after the server has handled any sequence of connections; it holds of
    the empty cache ([cache_sound_init]). *)
Theorem X3_server_cache_sound (incoming : list accepted)
    (cache : gmap string string) :
  cache_sound key salt cache ->
  cache_sound key salt (TCPServer key salt incoming cache).1.2.
Proof.
  revert cache. induction incoming as [|[c|] rest IH]; intros cache Hs;
    [done| |done].
  rewrite TCPServer_cons. cbn. by apply IH, handle_sound.
Qed.

(** X4 (the cache is transparent).  On a sound cache the resolution of a
    header line returns what [decode] returns on it, hit or miss, and it
    writes to the cache only the line with the address [decode] gave, after
    a miss. *)
Theorem X4_resolve_is_decode (ln : bytes) (cache : gmap string string) :
  cache_sound key salt cache ->
  (resolve key salt ln cache).1.1 = decode key salt ln /\
  forall k v,
    CacheWrite k v ∈ (resolve key salt ln cache).2 ->
    k = string_of_list_ascii ln /\
    decode key salt ln = Ok v /\
    readBackendAddrCache k cache = None.
Proof.
  intros Hs. split; [by apply resolve_sound|].
  intros k v. unfold resolve.
  destruct (readBackendAddrCache (string_of_list_ascii ln) cache)
    as [a|] eqn:Hhit; cbn.
  - intros H. by apply elem_of_nil in H.
  - destruct (decode key salt ln) as [a|e]; cbn.
    + intros H. apply list_elem_of_singleton in H. by injection H as -> ->.
    + intros H. by apply elem_of_nil in H.
Qed.

(** X5 (resolving twice).  When the resolution of a header line gives an
    address, resolving the same line again on the cache it left is a hit:
    it gives the same address, writes nothing and leaves the cache as it
    is. *)
Theorem X5_resolve_twice (ln : bytes) (cache : gmap string string)
    (addr : string) :
  (resolve key salt ln cache).1.1 = Ok addr ->
  resolve key salt ln (resolve key salt ln cache).1.2 =
    (Ok addr, (resolve key salt ln cache).1.2, []).
Proof.
  unfold resolve.
  destruct (readBackendAddrCache (string_of_list_ascii ln) cache)
    as [a|] eqn:Hhit; cbn.
  - intros [= ->]. by rewrite Hhit.
  - destruct (decode key salt ln) as [a|e]; cbn; [|done].
    intros [= ->]. by rewrite read_after_write.
Qed.

(** X6 (only decoded addresses are dialled).  From a sound cache, every
    address the server dials is the one [decode] returns on the header line
    of a connection it accepted, whose header was read without error. *)
Theorem X6_server_dials_decoded (incoming : list accepted)
    (cache : gmap string string) (addr : string) :
  cache_sound key salt cache ->
  Dial addr ∈ (TCPServer key salt incoming cache).2 ->
  exists c, Accept c ∈ incoming /\
            read_err c || isPrefix c = false /\
            decode key salt (line c) = Ok addr.
Proof.
  revert cache. induction incoming as [|[c|] rest IH]; intros cache Hs.
  - cbn. intros H. by apply elem_of_nil in H.
  - rewrite TCPServer_cons. cbn. rewrite elem_of_app. intros [H|H].
    + exists c. split; [by left|].
      destruct (resolve_sound (line c) cache Hs) as [Hres _].
      destruct (handle_trace c cache) as [Hnil | (Hread & a & Ha & Hev)];
        cbn zeta in *.
      { rewrite Hnil in H. by apply elem_of_nil in H. }
      split; [done|]. rewrite <- Hres, Ha. f_equal.
      assert (Hwr : Dial addr ∉ (resolve key salt (line c) cache).2).
      { unfold resolve. destruct (readBackendAddrCache _ cache); cbn.
        - apply not_elem_of_nil.
        - destruct (decode key salt (line c)); cbn;
            [|apply not_elem_of_nil].
          intros Hin. apply list_elem_of_singleton in Hin. discriminate. }
      destruct Hev as [[Hev _] | [Hev _]]; rewrite Hev in H;
        apply elem_of_app in H as [H|H]; try done;
        rewrite ?elem_of_cons, elem_of_nil in H;
        repeat (destruct H as [H|H]; try discriminate H; try done);
        by injection H.
    + destruct (IH _ (handle_sound c cache Hs) H) as (c' & Hin & Hc').
      exists c'. split; [by right|done].
  - cbn. intros H. by apply elem_of_nil in H.
Qed.


(** X8 (nothing after a failed accept).  Connections that arrive after a
    failed call of [Accept] are never handled: the run is the one up to the
    failure. *)
Theorem X8_server_stops (l1 l2 : list accepted) (cache : gmap string string) :
  TCPServer key salt (l1 ++ AcceptError :: l2) cache =
  TCPServer key salt (l1 ++ [AcceptError]) cache.
Proof.
  revert cache. induction l1 as [|[c|] l1 IH]; intros cache; [done| |done].
  rewrite <- !app_comm_cons, !TCPServer_cons. cbn zeta. by rewrite IH.
Qed.

(** X9 (the server keeps the cache bound).  The cache the server leaves
    after any sequence of connections is reached by writes alone, so it
    holds at most [_MaxBackendAddrCacheCount] entries. *)
Theorem X9_server_cache_bound (incoming : list accepted)
    (cache : gmap string string) :
  reachable cache ->
  reachable (TCPServer key salt incoming cache).1.2 /\
  (Z.of_nat (size (TCPServer key salt incoming cache).1.2)
     <= _MaxBackendAddrCacheCount)%Z.
Proof.
  intros Hr.
  assert (Hreach : reachable (TCPServer key salt incoming cache).1.2).
  { revert cache Hr. induction incoming as [|[c|] rest IH]; intros cache Hr;
      [done| |done].
    rewrite TCPServer_cons. cbn. apply IH.
    destruct (handle_cache c cache) as [-> | ->]; [done|].
    unfold resolve. destruct (readBackendAddrCache _ cache); [done|].
    destruct (decode key salt (line c)); [|done]. cbn. by constructor. }
  split; [done|]. by apply reachable_size.
Qed.

End server_facts.

Lemma X3_server_cache_sound_witness :
  cache_sound key128 salt_v1
    (TCPServer key128 salt_v1 [Accept conn_8080] init).1.2.
Proof. apply X3_server_cache_sound, cache_sound_init. Defined.

Lemma X4_resolve_is_decode_witness :
  let ln := list_ascii_of_string token_8080 in
  (resolve key128 salt_v1 ln init).1.1 = decode key128 salt_v1 ln /\
  forall k v,
    CacheWrite k v ∈ (resolve key128 salt_v1 ln init).2 ->
    k = string_of_list_ascii ln /\
    decode key128 salt_v1 ln = Ok v /\
    readBackendAddrCache k init = None.
Proof. apply X4_resolve_is_decode, cache_sound_init. Defined.

Lemma X5_resolve_twice_witness :
  let ln := list_ascii_of_string token_8080 in
  resolve key128 salt_v1 ln (resolve key128 salt_v1 ln init).1.2 =
    (Ok "127.0.0.1:8080"%string, (resolve key128 salt_v1 ln init).1.2, []).
Proof. apply X5_resolve_twice. vm_compute. reflexivity. Defined.

Lemma X6_server_dials_decoded_witness :
  exists c, Accept c ∈ [Accept conn_8080] /\
            read_err c || isPrefix c = false /\
            decode key128 salt_v1 (line c) = Ok "127.0.0.1:8080"%string.
Proof.
  apply (X6_server_dials_decoded key128 salt_v1 [Accept conn_8080] init).
  - apply cache_sound_init.
  - vm_compute. apply list_elem_of_further, list_elem_of_here.
Defined.


Lemma X9_server_cache_bound_witness :
  reachable (TCPServer key128 salt_v1 [Accept conn_8080] init).1.2 /\
  (Z.of_nat (size (TCPServer key128 salt_v1 [Accept conn_8080] init).1.2)
     <= _MaxBackendAddrCacheCount)%Z.
Proof. apply X9_server_cache_bound. constructor. Defined.

(** ** A secret of a wrong size *)

Lemma NewCipher_inv key block : aes.NewCipher key = Ok block -> valid_key key.
Proof.
  unfold aes.NewCipher, valid_key.
  destruct (length key) as [|n]; [done|].
  do 32 (destruct n as [|n]; [first [done | by auto] |]). done.
Qed.

(** With a key of another size no header line decodes. *)
Lemma decode_invalid_key key salt ln :
  ~ valid_key key ->
  decode key salt ln = Panic CorruptInputError \/
  decode key salt ln = Panic KeySizeError.
Proof.
  intros Hkey. unfold decode.
  destruct (base64.DecodeString _) as [data|e] eqn:Hd.
  2:{ apply DecodeString_error in Hd as ->. by left. }
  destruct (aes.NewCipher key) as [block|e] eqn:Hc.
  { by apply NewCipher_inv in Hc. }
  apply NewCipher_error in Hc as ->. by right.
Qed.

Lemma TCPServer_invalid_key key salt incoming :
  ~ valid_key key ->
  (TCPServer key salt incoming init).1.2 = init /\
  (TCPServer key salt incoming init).2 = [].
Proof.
  intros Hkey. induction incoming as [|[c|] rest IH]; [done| |done].
  rewrite TCPServer_cons. cbn zeta.
  assert (Hh : (handle key salt c init).1.2 = init /\
               (handle key salt c init).2 = []).
  { unfold handle. destruct (read_err c || isPrefix c); [done|].
    unfold resolve, readBackendAddrCache, init. rewrite lookup_empty.
    by destruct (decode_invalid_key key salt (line c) Hkey) as [-> | ->]. }
  destruct Hh as [-> ->]. by destruct IH as [-> ->].
Qed.

(** A variable that is not set reads as the empty string, which is no
    key. *)
Lemma Getenv_unset (env : gmap string string) (name : string) :
  env !! name = None -> Getenv env name = ""%string.
Proof. unfold Getenv. by intros ->. Qed.

(** The adjustment of the limit of open files: both limits end at
    [_MaxOpenfile] or above; [Setrlimit] is called unless both already
    were, and then with both limits at [_MaxOpenfile]. *)
Lemma raise_nofile_spec (lim : Rlimit) :
  let r := raise_nofile lim in
  ((_MaxOpenfile <= Cur r.1)%N /\ (_MaxOpenfile <= Max r.1)%N) /\
  (r.2 = false <-> (_MaxOpenfile <= Cur lim)%N /\ (_MaxOpenfile <= Max lim)%N) /\
  (if r.2 then Cur r.1 = _MaxOpenfile /\ Max r.1 = _MaxOpenfile
   else r.1 = lim).
Proof.
  unfold raise_nofile.
  destruct (N.ltb_spec (Cur lim) _MaxOpenfile),
           (N.ltb_spec (Max lim) _MaxOpenfile); cbn; split_and!;
    try done; try lia; split; try done; intros [? ?]; lia.
Qed.

(** X10 (a secret of a wrong size).  [main] does not check the secret it
    reads from the environment.  When it is not 16, 24 or 32 bytes long (as
    when SECRET is not set), the server runs but no header line ever
    decodes: whatever connections arrive, nothing is written to the cache
    and no backend is dialled. *)
Theorem X10_main_invalid_secret (w : world) (incoming : list accepted) :
  ~ valid_key (list_ascii_of_string (Getenv (environ w) "SECRET")) ->
  (main w incoming).2.1.2 = init /\ (main w incoming).2.2 = [].
Proof.
  intros Hkey. unfold main.
  destruct (raise_nofile (nofile w)) as [lim set]. cbn [snd].
  destruct (listen_ok w); [|done].
  by apply TCPServer_invalid_key.
Qed.

Lemma X10_main_invalid_secret_witness :
  let w := {| environ := {["SALT"%string := "v1"%string]};
              nofile := {| Cur := 1024; Max := 4096 |};
              listen_ok := true |} in
  (main w [Accept conn_8080; Accept conn_8080]).2.1.2 = init /\
  (main w [Accept conn_8080; Accept conn_8080]).2.2 = [].
Proof.
  intros w. apply X10_main_invalid_secret.
  vm_compute. intros [H | [H | H]]; discriminate H.
Defined.

(** ** What a decoded address tells *)

(** X11 (what success means).  Whenever [decode] returns an address, the
    header line is valid base64 of a payload of at least one block, the key
    has a valid size, the decrypted remainder of the payload is the address
    followed by the salt, and so the address is exactly as long as the
    payload less the IV and the salt. *)
Theorem X11_decode_success (key salt ln : bytes) (addr : string) :
  decode key salt ln = Ok addr ->
  exists data block,
    base64.DecodeString (string_of_list_ascii ln) = Ok data /\
    aes.NewCipher key = Ok block /\
    aes.BlockSize <= length data /\
    plaintext block data = list_ascii_of_string addr ++ salt /\
    length data =
      aes.BlockSize + length (list_ascii_of_string addr) + length salt.
Proof.
  intros Hdec.
  destruct (base64.DecodeString (string_of_list_ascii ln)) as [data|e] eqn:Hd.
  2:{ unfold decode in Hdec. by rewrite Hd in Hdec. }
  destruct (aes.NewCipher key) as [block|e] eqn:Hc.
  2:{ unfold decode in Hdec. by rewrite Hd, Hc in Hdec. }
  rewrite (decode_checks _ _ _ _ _ Hd Hc) in Hdec.
  destruct (Nat.ltb_spec (length data) aes.BlockSize) as [|Hlen]; [done|].
  cbn zeta in Hdec.
  assert (Hlt : length (plaintext block data) = length data - aes.BlockSize).
  { unfold plaintext. by rewrite XORKeyStream_length, length_drop. }
  set (text := plaintext block data) in *.
  destruct (length text <? length salt) eqn:Hshort; [done|].
  destruct (bytes_Equal _ salt) eqn:Heq; [|done]. cbn [negb] in Hdec.
  injection Hdec as <-. apply bytes_Equal_true in Heq.
  assert (Htext : text = take (length text - length salt) text ++ salt).
  { by rewrite <- (take_drop (length text - length salt) text) at 1;
      rewrite Heq. }
  exists data, block. rewrite list_ascii_of_string_of_list_ascii.
  split_and!; [done..|].
  apply (f_equal length) in Htext. rewrite length_app in Htext. lia.
Qed.

Lemma X11_decode_success_witness :
  exists data block,
    base64.DecodeString
      (string_of_list_ascii (list_ascii_of_string token_8080)) = Ok data /\
    aes.NewCipher key128 = Ok block /\
    aes.BlockSize <= length data /\
    plaintext block data =
      list_ascii_of_string "127.0.0.1:8080" ++ salt_v1 /\
    length data =
      aes.BlockSize + length (list_ascii_of_string "127.0.0.1:8080")
      + length salt_v1.
Proof. apply X11_decode_success. vm_compute. reflexivity. Defined.

(** ** Carriage returns and line feeds in a header line *)

Section newline_facts.

Local Open Scope N_scope.

Lemma newline_not_digit c :
  base64.is_newline c = true -> base64.decodeMap c = 0xff.
Proof.
  unfold base64.is_newline. rewrite orb_true_iff, !Ascii.eqb_eq.
  by intros [-> | ->].
Qed.

Lemma strip_newlines_cons c l :
  strip_newlines (c :: l) =
    if base64.is_newline c then strip_newlines l else c :: strip_newlines l.
Proof.
  unfold strip_newlines. rewrite filter_cons.
  destruct (base64.is_newline c); by case_decide.
Qed.

(** [skip_newlines] stops at the first byte that [strip_newlines] keeps. *)
Lemma skip_newlines_strip l :
  match base64.skip_newlines l with
  | [] => strip_newlines l = []
  | c :: l' =>
      base64.is_newline c = false /\
      strip_newlines l = c :: strip_newlines l'
  end.
Proof.
  induction l as [|c l IH]; [done|].
  cbn [base64.skip_newlines]. rewrite strip_newlines_cons.
  destruct (base64.is_newline c) eqn:Hc; [done|]. by rewrite Hc.
Qed.

Lemma skip_newlines_stripped l :
  base64.skip_newlines (strip_newlines l) = strip_newlines l.
Proof.
  induction l as [|c l IH]; [done|]. rewrite strip_newlines_cons.
  destruct (base64.is_newline c) eqn:Hc; [done|].
  cbn [base64.skip_newlines]. by rewrite Hc.
Qed.

(** The decoder passes over the newlines wherever they are: between the
    digits, before the padding and after it. *)
Lemma decode_loop_strip src dbuf :
  base64.decode_loop (strip_newlines src) dbuf = base64.decode_loop src dbuf.
Proof.
  revert dbuf. induction src as [|c src IH]; intros dbuf; [done|].
  rewrite strip_newlines_cons.
  destruct (base64.is_newline c) eqn:Hnl.
  { cbn [base64.decode_loop]. rewrite (newline_not_digit c Hnl), Hnl.
    cbn. apply IH. }
  cbn [base64.decode_loop]. rewrite Hnl.
  destruct (negb (base64.decodeMap c =? 0xff)).
  { rewrite !IH. done. }
  destruct (negb (Ascii.eqb c base64.StdPadding)); [done|].
  rewrite skip_newlines_stripped.
  pose proof (skip_newlines_strip src) as Hsrc.
  destruct (length dbuf) as [|[|[|[|n]]]]; try done.
  - destruct (base64.skip_newlines src) as [|c2 src2].
    + by rewrite Hsrc.
    + destruct Hsrc as [_ ->].
      destruct (Ascii.eqb c2 base64.StdPadding); [|done].
      rewrite skip_newlines_stripped.
      pose proof (skip_newlines_strip src2) as Hsrc2.
      destruct (base64.skip_newlines src2) as [|c3 src3].
      * by rewrite Hsrc2.
      * by destruct Hsrc2 as [_ ->].
  - destruct (base64.skip_newlines src) as [|c2 src2].
    + by rewrite Hsrc.
    + by destruct Hsrc as [_ ->].
Qed.

End newline_facts.

(** X12 (newlines in a token).  [decode] gives the same result on a header
    line and on the line without its carriage returns and line feeds: the
    base64 decoder passes over them.  (The cache is keyed by the line as it
    was read, so the two lines are two entries.) *)
Theorem X12_decode_ignores_newlines (key salt ln : bytes) :
  decode key salt (strip_newlines ln) = decode key salt ln.
Proof.
  unfold decode, base64.DecodeString.
  by rewrite !list_ascii_of_string_of_list_ascii, decode_loop_strip.
Qed.

(** A carriage return inside the sample token. *)
Example decode_token_with_CR :
  decode key128 salt_v1
    (list_ascii_of_string "AAECAwQFBgcICQoLDA0O" ++ ["013"%char]
     ++ list_ascii_of_string "D5FLrt7SkY44yK+r2byUP4Y=")
    = Ok "127.0.0.1:8080"%string.
Proof. vm_compute. reflexivity. Qed.

(** ** The header line *)

Section header_facts.

Local Abbreviation LF := ("010"%char).
Local Abbreviation CR := ("013"%char).

Lemma IndexByte_None s c : IndexByte s c = None <-> c ∉ s.
Proof.
  induction s as [|x s IH]; cbn.
  - split; [intros _; apply not_elem_of_nil | done].
  - destruct (Ascii.eqb_spec x c) as [->|Hne].
    + split; [done|]. intros H. exfalso. apply H. by left.
    + rewrite not_elem_of_cons. destruct (IndexByte s c) as [i|]; cbn.
      * split; [done|]. intros [_ Hn]. by apply IH in Hn.
      * split; [|done]. intros _. split; [congruence|]. by apply IH.
Qed.

Lemma IndexByte_first l c rest :
  c ∉ l -> IndexByte (l ++ c :: rest) c = Some (length l).
Proof.
  induction l as [|x l IH]; intros Hnot; cbn.
  - by rewrite Ascii.eqb_refl.
  - apply not_elem_of_cons in Hnot as [Hne Hnot].
    destruct (Ascii.eqb_spec x c) as [->|_]; [done|].
    by rewrite IH.
Qed.


Lemma drop_cr_id l : last l <> Some CR -> drop_cr l = l.
Proof.
  unfold drop_cr. destruct (last l) as [c|]; [|done].
  by destruct (Ascii.eqb_spec c CR) as [->|].
Qed.

(** A line that ends with a line feed within the buffer. *)
Lemma ReadLine_LF l rest :
  LF ∉ l -> length l < defaultBufSize ->
  ReadLine (l ++ LF :: rest) = (drop_cr l, false, false).
Proof.
  intros Hnot Hlen. unfold ReadLine.
  assert (Hbuf : take defaultBufSize (l ++ LF :: rest) =
                 l ++ LF :: take (defaultBufSize - length l - 1) rest).
  { rewrite take_app_ge by lia.
    destruct (defaultBufSize - length l) as [|n] eqn:Hn; [lia|].
    cbn [take]. by replace (S n - 1) with n by lia. }
  rewrite Hbuf, IndexByte_first by done.
  by rewrite take_app_length.
Qed.


(** When [ReadLine] reports an error, and when a line that did not fit. *)
Lemma ReadLine_flags input :
  ((ReadLine input).2 = true <-> input = []) /\
  ((ReadLine input).1.2 = true <->
   defaultBufSize <= length input /\ LF ∉ take defaultBufSize input).
Proof.
  unfold ReadLine.
  destruct (IndexByte (take defaultBufSize input) LF) as [i|] eqn:Hi.
  - cbn [fst snd]. split; split; try done.
    + intros ->. by rewrite take_nil in Hi.
    + intros [_ Hnot]. apply IndexByte_None in Hnot. congruence.
  - apply IndexByte_None in Hi.
    destruct (Nat.ltb_spec (length input) defaultBufSize) as [Hlt|Hge].
    + destruct input; cbn [fst snd]; split; split; try done;
        intros [? _]; lia.
    + cbn [fst snd]. split; split; try done.
      intros ->. cbn [length] in Hge. unfold defaultBufSize in Hge. lia.
Qed.

Lemma conn_of_fields input dial :
  line (conn_of input dial) = (ReadLine input).1.1 /\
  isPrefix (conn_of input dial) = (ReadLine input).1.2 /\
  read_err (conn_of input dial) = (ReadLine input).2 /\
  dial_ok (conn_of input dial) = dial.
Proof. unfold conn_of. by destruct (ReadLine input) as [[l p] e]. Qed.

(** The panics of [decode]. *)
Lemma decode_errors key salt ln e :
  decode key salt ln = Panic e ->
  e ∈ [CorruptInputError; KeySizeError; ErrCiphertextTooShort;
       ErrSaltCheckFailed; ErrSaltNotMatch].
Proof.
  destruct (base64.DecodeString (string_of_list_ascii ln)) as [data|e'] eqn:Hd.
  2:{ unfold decode. rewrite Hd. intros [= <-].
      apply DecodeString_error in Hd as ->. set_solver. }
  destruct (aes.NewCipher key) as [block|e'] eqn:Hc.
  2:{ unfold decode. rewrite Hd, Hc. intros [= <-].
      apply NewCipher_error in Hc as ->. set_solver. }
  rewrite (decode_checks _ _ _ _ _ Hd Hc). cbn zeta.
  repeat match goal with |- context [if ?c then _ else _] => destruct c end;
    intros [= <-]; set_solver.
Qed.


(** X14 (a header that is not read).  The handler stops at the header, with
    the cache untouched and nothing dialled, exactly when the client sends
    nothing before its connection ends, or sends [defaultBufSize] bytes
    without a line feed among them. *)
Theorem X14_header_rejected (key salt input : bytes)
    (dial : string -> bool) (cache : gmap string string) :
  handle key salt (conn_of input dial) cache = (Panic ErrReadLine, cache, [])
  <-> input = [] \/
      (defaultBufSize <= length input /\ LF ∉ take defaultBufSize input).
Proof.
  destruct (conn_of_fields input dial) as (Hl & Hp & He & Hd).
  destruct (ReadLine_flags input) as [Herr Hpre].
  unfold handle. rewrite Hp, He.
  destruct ((ReadLine input).2) eqn:E1.
  { split; [|done]. intros _. left. by apply Herr. }
  destruct ((ReadLine input).1.2) eqn:E2.
  { split; [|done]. intros _. right. by apply Hpre. }
  cbn [orb]. split.
  - unfold resolve.
    destruct (readBackendAddrCache _ cache) as [a|].
    + by destruct (dial_ok (conn_of input dial) a).
    + destruct (decode key salt _) as [a|e] eqn:Hdec.
      * by destruct (dial_ok (conn_of input dial) a).
      * intros [= ->]. apply decode_errors in Hdec.
        repeat (apply elem_of_cons in Hdec as [Hdec|Hdec]; [discriminate|]).
        by apply elem_of_nil in Hdec.
  - intros [H|H]; [apply Herr in H | apply Hpre in H]; congruence.
Qed.

End header_facts.


(** ** From the client's bytes to the backend *)

(** The round trip, from the token. *)
Lemma decode_encode key salt iv (D token : string) :
  valid_key key -> length iv = aes.BlockSize ->
  encode key salt iv D = Ok token ->
  decode key salt (list_ascii_of_string token) = Ok D.
Proof.
  intros Hkey Hiv. unfold encode. rewrite (NewCipher_valid key Hkey).
  intros [= <-].
  set (block := {| aes.enc := _ |}).
  set (ct := cipher.XORKeyStream _ _).
  rewrite (decode_checks key salt _ (iv ++ ct) block).
  - assert (Hlen : (length (iv ++ ct) <? aes.BlockSize) = false).
    { apply Nat.ltb_ge. rewrite length_app. lia. }
    rewrite Hlen. unfold plaintext. rewrite <- Hiv.
    rewrite take_app_length, drop_app_length. unfold ct.
    rewrite CFB_round_trip. cbn zeta.
    destruct (salt_check_suffix (list_ascii_of_string D ++ salt) salt)
      as [_ [Hl He]]; [by eexists|].
    rewrite Hl, He. cbn [negb]. rewrite length_app.
    replace (length (list_ascii_of_string D) + length salt - length salt)
      with (length (list_ascii_of_string D)) by lia.
    by rewrite take_app_length, string_of_list_ascii_of_string.
  - rewrite string_of_list_ascii_of_string.
    apply DecodeString_EncodeToString.
  - by apply NewCipher_valid.
Qed.

(** The encoder writes digits and padding only. *)
Lemma EncodeToString_no_newline src :
  Forall (fun c => base64.is_newline c = false)
         (base64.EncodeToString_bytes src).
Proof.
  assert (Hd : forall x, base64.is_newline
                           (base64.encode (N.land x 0x3f)) = false).
  { intros x. by destruct (digit_spec _ (land_63_lt x)) as (_ & ? & _). }
  induction src as [|a|a b|a b c src IH] using list_ind3;
    cbn [base64.EncodeToString_bytes]; repeat constructor; auto.
Qed.

(** A token is one line. *)
Lemma token_line key salt iv D token :
  encode key salt iv D = Ok token ->
  ("010"%char ∉ list_ascii_of_string token) /\
  last (list_ascii_of_string token) <> Some "013"%char.
Proof.
  unfold encode. destruct (aes.NewCipher key) as [block|]; [|done].
  intros [= <-]. unfold base64.EncodeToString.
  rewrite list_ascii_of_string_of_list_ascii.
  set (t := base64.EncodeToString_bytes _).
  pose proof (EncodeToString_no_newline
                (iv ++ cipher.XORKeyStream (cipher.NewCFBEncrypter block iv)
                         (list_ascii_of_string D ++ salt))) as Hall.
  fold t in Hall. rewrite Forall_forall in Hall. split.
  - intros Hin. by apply Hall in Hin.
  - intros Hlast. apply last_Some_elem_of in Hlast. by apply Hall in Hlast.
Qed.

(** X15 (from the token to the tunnel).  Let [token] be made for the
    address [D] with the server's key and salt and an IV of one block, and
    let it fit the reader's buffer.  When a client sends the token, a line
    feed and anything after it, the cache is sound and the dial of [D]
    succeeds, the handler dials [D] and no other address and relays to it;
    it writes the token to the cache if and only if it was not there, and
    afterwards the token hits with [D]. *)
Theorem X15_tunnel (key salt iv : bytes) (D token : string) (rest : bytes)
    (dial : string -> bool) (cache : gmap string string) :
  valid_key key ->
  length iv = aes.BlockSize ->
  encode key salt iv D = Ok token ->
  S (length (list_ascii_of_string token)) < defaultBufSize ->
  cache_sound key salt cache ->
  dial D = true ->
  let h := handle key salt
             (conn_of (list_ascii_of_string token ++ "010"%char :: rest) dial)
             cache in
  h.1.1 = Panic ErrRelayDone /\
  h.2 = match readBackendAddrCache token cache with
        | Some _ => []
        | None => [CacheWrite token D]
        end ++ [Dial D; Relay D] /\
  readBackendAddrCache token h.1.2 = Some D.
Proof.
  intros Hkey Hiv Henc Hlen Hs Hdial.
  destruct (token_line key salt iv D token Henc) as [Hlf Hcr].
  pose proof (decode_encode key salt iv D token Hkey Hiv Henc) as Hdec.
  unfold conn_of. rewrite ReadLine_LF, drop_cr_id by (done || lia).
  cbn zeta. unfold handle. cbn [read_err isPrefix orb line dial_ok].
  unfold resolve. rewrite string_of_list_ascii_of_string.
  destruct (readBackendAddrCache token cache) as [a|] eqn:Hhit.
  - assert (a = D) as ->.
    { apply Hs in Hhit. congruence. }
    rewrite Hdial. cbn. auto.
  - rewrite Hdec, Hdial. cbn. split_and!; [done..|].
    apply read_after_write.
Qed.

Lemma X15_tunnel_witness :
  let h := handle key128 salt_v1
             (conn_of (list_ascii_of_string token_8080
                       ++ "010"%char :: list_ascii_of_string "ping")
                      (fun _ => true))
             init in
  h.1.1 = Panic ErrRelayDone /\
  h.2 = match readBackendAddrCache token_8080 init with
        | Some _ => []
        | None => [CacheWrite token_8080 "127.0.0.1:8080"]
        end ++ [Dial "127.0.0.1:8080"; Relay "127.0.0.1:8080"] /\
  readBackendAddrCache token_8080 h.1.2 = Some "127.0.0.1:8080"%string.
Proof.
  apply (X15_tunnel key128 salt_v1 iv_0_15).
  - left. reflexivity.
  - vm_compute. reflexivity.
  - vm_compute. reflexivity.
  - vm_compute. lia.
  - apply cache_sound_init.
  - reflexivity.
Defined.

(** ** The counter of the relay *)

Lemma relay_inv_step g s s' : relay_inv s -> step g s = Some s' -> relay_inv s'.
Proof.
  unfold relay_inv. destruct s as [n p1 p2 h]. cbn.
  intros [Hwg Hpc] Hstep.
  destruct g; cbn in Hstep.
  - destruct h; cbn in *.
    + injection Hstep as <-. cbn. destruct Hpc as [-> ->]. by repeat split.
    + injection Hstep as <-. cbn. destruct Hpc as [? ->]. by repeat split.
    + destruct (n =? 0)%Z; [|done]. injection Hstep as <-. by cbn.
    + done.
  - destruct p1; cbn in Hstep; try done; injection Hstep as <-; cbn in *;
      (split; [lia|]); destruct h; intuition congruence.
  - destruct p2; cbn in Hstep; try done; injection Hstep as <-; cbn in *;
      (split; [lia|]); destruct h; intuition congruence.
Qed.

Lemma relay_inv_run schedule s s' :
  relay_inv s -> run schedule s = Some s' -> relay_inv s'.
Proof.
  revert s. induction schedule as [|g schedule IH]; intros s Hs; cbn.
  - by intros [= <-].
  - destruct (step g s) as [s1|] eqn:Hstep; [|done]. cbn.
    apply IH. by eapply relay_inv_step.
Qed.

Lemma relay_inv_start : relay_inv relay_start.
Proof. by repeat split. Qed.

(** X16 (the counter of the WaitGroup).  In every schedule the counter is
    the number of pipes inside [io.Copy]: it is never negative, so the
    [wg.Done] of the deferred function never panics, and never above
    two. *)
Theorem X16_relay_counter (schedule : list goroutine) (s : relay) :
  run schedule relay_start = Some s ->
  wg s = (copying (to_client s) + copying (to_backend s))%Z /\
  (0 <= wg s <= 2)%Z.
Proof.
  intros Hrun.
  destruct (relay_inv_run _ _ _ relay_inv_start Hrun) as [Hwg _].
  split; [done|]. rewrite Hwg.
  destruct (to_client s), (to_backend s); cbn; lia.
Qed.

Lemma X16_relay_counter_witness :
  let s := {| wg := 1; to_client := Copying; to_backend := Unstarted;
              pc := AtGoPipe2 |} in
  wg s = (copying (to_client s) + copying (to_backend s))%Z /\
  (0 <= wg s <= 2)%Z.
Proof.
  intros s. apply (X16_relay_counter [Handler; PipeToClient]). reflexivity.
Defined.

(** X17 (the relay can always end).  Whatever the schedule so far, the
    relay is not stuck as long as both copies come to an end: letting the
    handler reach [wg.Wait], each pipe run to its end and the handler pass
    [wg.Wait] is a schedule from the state reached, and it ends with both
    pipes finished, the counter at zero and the handler past [wg.Wait]. *)
Theorem X17_relay_can_finish (schedule : list goroutine) (s : relay) :
  run schedule relay_start = Some s ->
  run (finish s) s =
    Some {| wg := 0; to_client := Finished; to_backend := Finished;
            pc := AfterWait |}.
Proof.
  intros Hrun.
  pose proof (relay_inv_run _ _ _ relay_inv_start Hrun) as [Hwg Hpc].
  destruct s as [n p1 p2 h]. cbn in Hwg, Hpc. subst n.
  destruct h, p1, p2; cbn in Hpc; try (by destruct Hpc); reflexivity.
Qed.

Lemma X17_relay_can_finish_witness :
  let s := {| wg := 0; to_client := Spawned; to_backend := Spawned;
              pc := AfterWait |} in
  run (finish s) s =
    Some {| wg := 0; to_client := Finished; to_backend := Finished;
            pc := AfterWait |}.
Proof.
  intros s. apply (X17_relay_can_finish [Handler; Handler; Handler]).
  reflexivity.
Defined.

(** ** The size of a header line *)

Lemma IndexByte_Some s c i :
  IndexByte s c = Some i -> i < length s /\ c ∉ take i s.
Proof.
  revert i. induction s as [|x s IH]; intros i; cbn; [done|].
  destruct (Ascii.eqb_spec x c) as [->|Hne].
  - intros [= <-]. split; [lia|]. cbn. apply not_elem_of_nil.
  - destruct (IndexByte s c) as [j|]; cbn; [|done].
    intros [= <-]. destruct (IH j eq_refl) as [Hlt Hnot].
    split; [lia|]. cbn. rewrite not_elem_of_cons. split; [congruence|done].
Qed.

Lemma drop_cr_prefix l : drop_cr l `prefix_of` l.
Proof.
  unfold drop_cr. destruct (last l) as [c|]; [|done].
  destruct (Ascii.eqb c "013"%char); [apply prefix_take|done].
Qed.

(** X18 (the size of a header line).  Whatever the client sends, the line
    the handler reads is the beginning of what was sent, holds no line feed
    and is at most [defaultBufSize] bytes long; a line that is passed on to
    the cache and to [decode] (no error, no [isPrefix]) is shorter than
    [defaultBufSize]. *)
Theorem X18_header_line_bound (input : bytes) :
  let r := ReadLine input in
  r.1.1 `prefix_of` input /\
  ("010"%char ∉ r.1.1) /\
  length r.1.1 <= defaultBufSize /\
  (if r.1.2 || r.2 then True else length r.1.1 < defaultBufSize).
Proof.
  cbn zeta. unfold ReadLine.
  pose proof (prefix_take input defaultBufSize) as Hbuf.
  assert (Hlen : length (take defaultBufSize input) <= defaultBufSize)
    by (rewrite length_take; lia).
  assert (Hcr : forall l, "010"%char ∉ l -> "010"%char ∉ drop_cr l).
  { intros l Hl Hin. apply Hl.
    destruct (drop_cr_prefix l) as [k Hk]. rewrite Hk.
    apply elem_of_app. by left. }
  assert (Hcl : forall l, length (drop_cr l) <= length l).
  { intros l. apply prefix_length, drop_cr_prefix. }
  destruct (IndexByte (take defaultBufSize input) "010") as [i|] eqn:Hi.
  - apply IndexByte_Some in Hi as [Hlt Hnot]. cbn [fst snd orb].
    pose proof (Hcl (take i (take defaultBufSize input))) as Hl.
    rewrite length_take in Hl. split_and!.
    + etrans; [apply drop_cr_prefix|]. etrans; [apply prefix_take|done].
    + by apply Hcr.
    + lia.
    + lia.
  - apply IndexByte_None in Hi.
    destruct (Nat.ltb_spec (length input) defaultBufSize) as [Hlt|Hge].
    + rewrite take_ge in Hi by lia.
      destruct input; cbn [fst snd orb]; split_and!;
        try done; try lia; apply not_elem_of_nil.
    + cbn [fst snd orb]. pose proof (Hcl (take defaultBufSize input)).
      split_and!; [|by apply Hcr|lia|done].
      etrans; [apply drop_cr_prefix|done].
Qed.
